(** * sveltekit-superforms: the server-side validation pipeline

    A shallow embedding of [src/lib/superValidate.ts]: the reconciliation
    function [superValidate] and the mutation helpers [message] and
    [setError], together with the theorems that relate them to the
    written specification of the library.

    JavaScript objects used as keyed records are finite maps ([gmap] with
    string keys) that hold the own properties of the object.  The records
    of the pipeline are plain objects, so behind their own properties they
    all have the members of [Object.prototype]: [key in obj] and [obj[key]]
    see those too, [Object.keys] and the spread do not.  A property can be
    present with the value [undefined], which is why [JUndefined] is a
    value of its own: [key in obj] looks for the key, while
    [obj[key] !== undefined] also inspects the value. *)

From Stdlib Require Import ZArith Ascii String.
From stdpp Require Import base option list strings gmap fin_maps.

Set Warnings "-register-all".

Local Open Scope string_scope.
Local Open Scope Z_scope.

(** ** Values and records *)

Inductive JsVal : Type :=
  | JUndefined
  | JNull
  | JBool (b : bool)
  | JNum (z : Z)
  | JStr (s : string)
  | JArr (items : list JsVal)
  | JObj (fields : list (string * JsVal))
  | JNative (name : string).

(** [JNative name] is what reading the member [name] of
    [Object.prototype] gives: the function [Object] for [constructor], the
    built-in method for [toString], the prototype itself for [__proto__],
    and so on. *)

(** [T extends Record<string, unknown>]: the own properties. *)
Abbreviation Rec := (gmap string JsVal).

(** The property names of [Object.prototype], which every plain object
    inherits. *)
Definition objectPrototypeKeys : list string :=
  [ "constructor"; "__defineGetter__"; "__defineSetter__"; "hasOwnProperty";
    "__lookupGetter__"; "__lookupSetter__"; "isPrototypeOf";
    "propertyIsEnumerable"; "toString"; "valueOf"; "__proto__";
    "toLocaleString" ].

Definition inherited (key : string) : bool :=
  bool_decide (key ∈ objectPrototypeKeys).

(** [o[key]] on a record: the own property when there is one, else the
    inherited member, else [undefined]. *)
Definition getProp (o : Rec) (key : string) : JsVal :=
  match o !! key with
  | Some v => v
  | None => if inherited key then JNative key else JUndefined
  end.

(** [o[key] !== undefined] *)
Definition isDefined (v : JsVal) : bool :=
  match v with JUndefined => false | _ => true end.

(** [key in o]: an own property or an inherited one. *)
Definition hasKey (key : string) (o : Rec) : bool :=
  bool_decide (is_Some (o !! key)) || inherited key.

(** [o[key] = v].  The assignment makes or changes an own property,
    except for the key [__proto__] on an object that has no own property
    of that name: there the inherited setter takes the value (it replaces
    the prototype of [o] when the value is an object or [null], and does
    nothing otherwise) and no own property appears.  A record is described
    by its own properties; the prototype of the record that
    [superValidate] builds is read nowhere in the code modelled here. *)
Definition setProp (o : Rec) (key : string) (v : JsVal) : Rec :=
  if decide (key = "__proto__" ∧ o !! key = None) then o
  else <[key := v]> o.

(** ** JSON schema metadata ([JSONSchema] of [jsonSchema/index.js])

    Only the fields the pipeline reads are kept.  [additionalProperties]
    is a boolean or a sub-schema, or is missing. *)

Inductive JSONSchema : Type :=
  MkSchema {
    type_ : option string;
    format : option string;
    default_ : option JsVal;
    properties : option (gmap string JSONSchema);
    required : list string;
    additionalProperties : option (bool + JSONSchema)
  }.

(** JavaScript truthiness of [jsonSchema.additionalProperties]: [undefined]
    and [false] are falsy, [true] and any sub-schema object are truthy. *)
Definition truthyAP (ap : option (bool + JSONSchema)) : bool :=
  match ap with
  | None => false
  | Some (inl b) => b
  | Some (inr _) => true
  end.

(** [Object.keys(jsonSchema.properties ?? {})] *)
Definition declaredProps (js : JSONSchema) : gmap string JSONSchema :=
  default ∅ (properties js).

Definition declaredKeys (js : JSONSchema) : list string :=
  (map_to_list (declaredProps js)).*1.

(** ** Validation outcome, error tree and the validated form *)

(** One validation failure: [{ path, message }]. *)
Record Issue : Type := MkIssue {
  issue_path : list string;
  issue_message : string
}.

(** [ValidationResult<T>]: [{success: true, data}] or
    [{success: false, issues}]. *)
Inductive ValidationResult : Type :=
  | Success (data : Rec)
  | Failure (issues : list Issue).

Definition success (r : ValidationResult) : bool :=
  match r with Success _ => true | Failure _ => false end.

Definition issues (r : ValidationResult) : list Issue :=
  match r with Success _ => [] | Failure l => l end.

(** [ValidationErrors<T>]: every node of the error tree is either a list of
    messages ([string[]]) or an object whose properties are nodes again;
    the root is always an object. *)
Inductive ErrorTree : Type :=
  | ErrArr (msgs : list string)
  | ErrObj (fields : gmap string ErrorTree).

Abbreviation Errors := (gmap string ErrorTree).

(** [SuperValidated<T, M>].  The constraints tree and the message payload
    are JSON-like values. *)
Record SuperValidated : Type := MkForm {
  form_id : option string;
  valid : bool;
  posted : bool;
  errors : Errors;
  data : Rec;
  constraints : JsVal;
  form_message : option JsVal
}.

(** [SuperValidateOptions<T>]: every field is optional. *)
Record SuperValidateOptions : Type := MkOptions {
  opt_errors : option bool;
  opt_id : option string;
  opt_preprocessed : option (list string);
  opt_defaults : option Rec;
  opt_jsonSchema : option JSONSchema;
  opt_strict : option bool
}.

(** Truthiness of an optional boolean ([undefined] is falsy). *)
Definition truthy (b : option bool) : bool := default false b.

(** [SuperValidateData<T>]: what a caller may pass as [data].  A payload
    of pairs comes with the value of its reserved form-identifier field,
    when it has one.  A [Request] or [RequestEvent] is represented by the
    form data of its body and a [URL] by its query pairs. *)
Inductive Source : Type :=
  | SrcUndefined
  | SrcNull
  | SrcPartial (r : Rec)
  | SrcFormData (fid : option string) (entries : list (string * string))
  | SrcSearchParams (fid : option string) (entries : list (string * string)).

(** [!!data] *)
Definition truthySource (s : Source) : bool :=
  match s with SrcUndefined | SrcNull => false | _ => true end.

(** Result of [parseRequest]. *)
Record ParsedData : Type := MkParsed {
  parsed_id : option string;
  parsed_data : option Rec;
  parsed_posted : bool
}.

(** ** The reconciliation engine: [superValidate] *)

Section Pipeline.

(** Collaborators of [superValidate] that live outside
    [superValidate.ts].  They are parameters of the development: every
    theorem about [superValidate] holds whatever they compute.

    - [nanoid]: the generator built by [customAlphabet]; drawing an
      identifier advances the generator state;
    - [mapAdapter] (adapters/index.js): completes an adapter into the
      record [validation] the function reads;
    - [validate] (@decs/typeschema): runs a validator on a record;
    - [parseRequest] (formData.js): the input normalizer;
    - [mapErrors] (errors.js): the error tree builder. *)
Variable Rng : Type.
Variable nanoid : Rng -> string * Rng.
Variable Validator : Type.
Variable validate : Validator -> Rec -> ValidationResult.

Record MappedValidationAdapter : Type := MkValidation {
  defaults : Rec;
  jsonSchema : JSONSchema;
  adapter_constraints : JsVal;
  objects : JsVal;
  validator : Validator;
  customValidator : option (Rec -> ValidationResult)
}.

Variable ValidationAdapter : Type.
Variable mapAdapter : ValidationAdapter -> MappedValidationAdapter.
Variable parseRequest :
  Source -> JSONSchema -> option SuperValidateOptions -> ParsedData.
Variable mapErrors : list Issue -> JsVal -> Errors.

(** [function formId() { return nanoid(); }] *)
Definition formId (g : Rng) : string * Rng := nanoid g.

(** The two call shapes of [superValidate]; lines 72-76 of the source
    bring the first to the second with [data = undefined].  (The source
    tells them apart by the adapter's tag property
    [superFormValidationLibrary]; a data source is taken not to carry
    it.) *)
Inductive SuperValidateArgs : Type :=
  | AdapterFirst (adapter : ValidationAdapter)
                 (options : option SuperValidateOptions)
  | DataFirst (data : Source) (adapter : ValidationAdapter)
              (options : option SuperValidateOptions).

Definition unifyArgs (a : SuperValidateArgs)
  : Source * ValidationAdapter * option SuperValidateOptions :=
  match a with
  | AdapterFirst adapter options => (SrcUndefined, adapter, options)
  | DataFirst d adapter options => (d, adapter, options)
  end.

(** [options?.defaults ?? validation.defaults] *)
Definition defaultsOf (validation : MappedValidationAdapter)
    (options : option SuperValidateOptions) : Rec :=
  default (defaults validation) (options ≫= opt_defaults).

(** [options?.jsonSchema ?? validation.jsonSchema] *)
Definition jsonSchemaOf (validation : MappedValidationAdapter)
    (options : option SuperValidateOptions) : JSONSchema :=
  default (jsonSchema validation) (options ≫= opt_jsonSchema).

(** [options?.errors ?? (options?.strict ? true : !!data)] *)
Definition addErrorsOf (d : Source) (options : option SuperValidateOptions)
    : bool :=
  default (if truthy (options ≫= opt_strict) then true else truthySource d)
          (options ≫= opt_errors).

(** Line 88, the merge step:
    [{ ...(options?.strict ? {} : defaults), ...(parsed.data ?? {}) }].
    Later spread entries win, and stdpp's union keeps the left operand's
    entries, so the parsed data is the left operand. *)
Definition mergeData (options : option SuperValidateOptions)
    (dflt : Rec) (parsedData : option Rec) : Rec :=
  default ∅ parsedData ∪ (if truthy (options ≫= opt_strict) then ∅ else dflt).

(** Lines 92-94: the custom validator when the adapter has one, the
    generic [validate] otherwise. *)
Definition runValidator (validation : MappedValidationAdapter) (d : Rec)
    : ValidationResult :=
  match customValidator validation with
  | Some cv => cv d
  | None => validate (validator validation) d
  end.

(** Lines 90-95. *)
Definition statusOf (validation : MappedValidationAdapter)
    (hasData addErrors : bool) (merged : Rec) : ValidationResult :=
  if hasData || addErrors then runValidator validation merged
  else Failure [].

(** One round of the loop of lines 106-109. *)
Definition stripStep (finalData dflt : Rec) (out : Rec) (key : string) : Rec :=
  if hasKey key finalData then setProp out key (getProp finalData key)
  else if isDefined (getProp dflt key) then setProp out key (getProp dflt key)
  else out.

(** Lines 105-109: keep the keys that belong to the schema. *)
Definition stripKeys (js : JSONSchema) (finalData dflt : Rec) : Rec :=
  foldl (stripStep finalData dflt) ∅ (declaredKeys js).

(** One round of the loop of lines 112-116.  [outputData] is the same
    object as [finalData] there, so the membership test reads the record
    as updated so far. *)
Definition backfillStep (dflt : Rec) (out : Rec) (key : string) : Rec :=
  if negb (hasKey key out) && isDefined (getProp dflt key)
  then setProp out key (getProp dflt key)
  else out.

(** Lines 111-116. *)
Definition backfill (finalData dflt : Rec) : Rec :=
  foldl (backfillStep dflt) finalData (map_to_list dflt).*1.

(** Lines 103-117. *)
Definition outputDataOf (js : JSONSchema) (finalData dflt : Rec) : Rec :=
  if negb (truthyAP (additionalProperties js))
  then stripKeys js finalData dflt
  else backfill finalData dflt.

(** Line 122:
    [parsed.id ?? options?.id ?? (parsed.posted ? undefined : formId())] *)
Definition resolveId (parsed : ParsedData)
    (options : option SuperValidateOptions) (g : Rng)
    : option string * Rng :=
  match parsed_id parsed with
  | Some i => (Some i, g)
  | None =>
      match options ≫= opt_id with
      | Some i => (Some i, g)
      | None =>
          if parsed_posted parsed then (None, g)
          else let '(i, g') := formId g in (Some i, g')
      end
  end.

(** Lines 63-129.  The function is asynchronous; its awaited steps run
    one after the other, and the model is the form its promise resolves
    to, together with the generator state after the call. *)
Definition superValidate (args : SuperValidateArgs) (g : Rng)
    : SuperValidated * Rng :=
  let '(d, adapter, options) := unifyArgs args in
  let validation := mapAdapter adapter in
  let dflt := defaultsOf validation options in
  let js := jsonSchemaOf validation options in
  let addErrors := addErrorsOf d options in
  let parsed := parseRequest d js options in
  let hasData := bool_decide (is_Some (parsed_data parsed)) in
  let merged := mergeData options dflt (parsed_data parsed) in
  let status := statusOf validation hasData addErrors merged in
  let ok := success status in
  let errs :=
    if ok || negb addErrors then ∅
    else mapErrors (issues status) (objects validation) in
  let finalData :=
    match status with Success sd => sd | Failure _ => merged end in
  let outputData := outputDataOf js finalData dflt in
  let '(i, g') := resolveId parsed options g in
  ({| form_id := i;
      valid := ok;
      posted := parsed_posted parsed;
      errors := errs;
      data := outputData;
      constraints := adapter_constraints validation;
      form_message := None |}, g').

(** *** The intermediate values of a call

    The local constants of [superValidate], as functions of the call, so
    that statements can speak about them. *)

Definition callData (args : SuperValidateArgs) : Source :=
  (unifyArgs args).1.1.
Definition callAdapter (args : SuperValidateArgs) : ValidationAdapter :=
  (unifyArgs args).1.2.
Definition callOptions (args : SuperValidateArgs)
    : option SuperValidateOptions := (unifyArgs args).2.

(** [validation] *)
Definition validationOf (args : SuperValidateArgs)
    : MappedValidationAdapter := mapAdapter (callAdapter args).

(** [defaults] and [jsonSchema] *)
Definition callDefaults (args : SuperValidateArgs) : Rec :=
  defaultsOf (validationOf args) (callOptions args).
Definition callSchema (args : SuperValidateArgs) : JSONSchema :=
  jsonSchemaOf (validationOf args) (callOptions args).

(** [addErrors] *)
Definition callAddErrors (args : SuperValidateArgs) : bool :=
  addErrorsOf (callData args) (callOptions args).

(** [parsed], as [parseRequest] returns it, and [hasData] *)
Definition parsedOf (args : SuperValidateArgs) : ParsedData :=
  parseRequest (callData args) (callSchema args) (callOptions args).
Definition hasDataOf (args : SuperValidateArgs) : bool :=
  bool_decide (is_Some (parsed_data (parsedOf args))).

(** [parsed.data] after line 88 *)
Definition mergedOf (args : SuperValidateArgs) : Rec :=
  mergeData (callOptions args) (callDefaults args)
            (parsed_data (parsedOf args)).

(** [status] *)
Definition statusFor (args : SuperValidateArgs) : ValidationResult :=
  statusOf (validationOf args) (hasDataOf args) (callAddErrors args)
           (mergedOf args).

(** [finalData]: the validated data when valid, the merged data if not *)
Definition finalDataOf (args : SuperValidateArgs) : Rec :=
  match statusFor args with
  | Success sd => sd
  | Failure _ => mergedOf args
  end.

End Pipeline.

Arguments defaults {Validator} _.
Arguments jsonSchema {Validator} _.
Arguments adapter_constraints {Validator} _.
Arguments objects {Validator} _.
Arguments validator {Validator} _.
Arguments customValidator {Validator} _.
Arguments AdapterFirst {ValidationAdapter} adapter options.
Arguments DataFirst {ValidationAdapter} data adapter options.
Arguments unifyArgs {ValidationAdapter} a.
Arguments defaultsOf {Validator} validation options.
Arguments jsonSchemaOf {Validator} validation options.
Arguments runValidator {Validator} validate validation d.
Arguments statusOf {Validator} validate validation hasData addErrors merged.
Arguments formId {Rng} nanoid g.
Arguments resolveId {Rng} nanoid parsed options g.
Arguments superValidate {Rng} nanoid {Validator} validate {ValidationAdapter}
  mapAdapter parseRequest mapErrors args g.
Arguments callData {ValidationAdapter} args.
Arguments callAdapter {ValidationAdapter} args.
Arguments callOptions {ValidationAdapter} args.
Arguments validationOf {Validator ValidationAdapter} mapAdapter args.
Arguments callDefaults {Validator ValidationAdapter} mapAdapter args.
Arguments callSchema {Validator ValidationAdapter} mapAdapter args.
Arguments callAddErrors {ValidationAdapter} args.
Arguments parsedOf {Validator ValidationAdapter} mapAdapter parseRequest args.
Arguments hasDataOf {Validator ValidationAdapter} mapAdapter parseRequest args.
Arguments mergedOf {Validator ValidationAdapter} mapAdapter parseRequest args.
Arguments statusFor {Validator} validate {ValidationAdapter} mapAdapter
  parseRequest args.
Arguments finalDataOf {Validator} validate {ValidationAdapter} mapAdapter
  parseRequest args.

(** ** The mutation API: [message] and [setError] *)

(** What the two functions return: [fail(status, { form })] of
    @sveltejs/kit, an [ActionFailure] carrying the status and the form, or
    the plain object [{ form }].  The form inside is the caller's form
    object as the call left it. *)
Inductive ActionResult : Type :=
  | ActionFailure (status : Z) (form : SuperValidated)
  | PlainResult (form : SuperValidated).

Definition resultForm (r : ActionResult) : SuperValidated :=
  match r with ActionFailure _ f => f | PlainResult f => f end.

Definition resultStatus (r : ActionResult) : option Z :=
  match r with ActionFailure s _ => Some s | PlainResult _ => None end.

(** Truthiness of an optional number: [undefined] and [0] are falsy. *)
Definition truthyNum (n : option Z) : bool :=
  match n with Some z => negb (z =? 0) | None => false end.

(** The [options] argument of [message]: [{ status?: NumericRange<400, 599> }].
    The range is a compile-time type only; at run time any number can
    arrive, so the status is an integer here. *)
Record MessageOptions : Type := MkMessageOptions { msg_status : option Z }.

(** Lines 135-148. *)
Definition message (form : SuperValidated) (payload : JsVal)
    (options : option MessageOptions) : ActionResult :=
  let status := options ≫= msg_status in
  let v :=
    if truthyNum status && (400 <=? default 0 status) then false
    else valid form in
  let form' :=
    {| form_id := form_id form; valid := v; posted := posted form;
       errors := errors form; data := data form;
       constraints := constraints form; form_message := Some payload |} in
  if negb (valid form') then ActionFailure (default 400 status) form'
  else PlainResult form'.

Definition setMessage := message.

(** [SetErrorOptions] *)
Record SetErrorOptions : Type := MkSetErrorOptions {
  overwrite : option bool;
  status : option Z
}.

(** [string | string[]] *)
Inductive Messages : Type :=
  | OneMessage (s : string)
  | ManyMessages (l : list string).

(** [Array.isArray(error) ? error : [error]] *)
Definition errArrOf (error : Messages) : list string :=
  match error with OneMessage s => [s] | ManyMessages l => l end.

(** The two declared signatures of [setError]. *)
Inductive SetErrorArgs : Type :=
  | FormLevel (error : Messages) (options : option SetErrorOptions)
  | AtPath (path : string) (error : Messages)
           (options : option SetErrorOptions).

(** Lines 196-202: the form-level signature has its second argument read
    as the error and the path set to the empty string; missing options
    become the empty object. *)
Definition unifySetError (a : SetErrorArgs)
    : string * Messages * SetErrorOptions :=
  let noOptions := {| overwrite := None; status := None |} in
  match a with
  | FormLevel error options =>
      (EmptyString, error, default noOptions options)
  | AtPath path error options => (path, error, default noOptions options)
  end.

(** How a call ends: it returns, or the path string is rejected, or the
    walk reaches a place where the error tree does not have the shape its
    type [ValidationErrors<T>] promises (a message list where an object is
    needed).  The development says nothing about the form in the last two
    cases. *)
Inductive Outcome (A : Type) : Type :=
  | Done (a : A)
  | MalformedPath
  | IllTyped.

Arguments Done {A} a.
Arguments MalformedPath {A}.
Arguments IllTyped {A}.

(** *** The path engine *)

Inductive PathMode : Type := InKey | InIndex | AfterIndex.

Definition isDigit (c : ascii) : bool :=
  let n := nat_of_ascii c in (48 <=? n)%nat && (n <=? 57)%nat.

Definition snoc (s : string) (c : ascii) : string := s ++ String c EmptyString.

(** Modelled from the spec: the path parser of stringPath.js, which is
    not among the translated sources.  Section 4.1: the path is split on
    [.] and [[n]] into an ordered sequence of segments, each a string key or a
    non-negative integer index; an empty segment (leading, trailing or
    doubled dot), an unbalanced bracket or an index that is not a number
    is a failure.  Indices are kept as their decimal strings, since
    [o[0]] and [o["0"]] name the same property. *)
Fixpoint splitPathFrom (mode : PathMode) (cur : string) (s : string)
    : option (list string) :=
  match s with
  | EmptyString =>
      match mode with
      | InKey => if decide (cur = EmptyString) then None else Some [cur]
      | InIndex => None
      | AfterIndex => Some []
      end
  | String c rest =>
      match mode with
      | InKey =>
          if decide (c = "."%char) then
            if decide (cur = EmptyString) then None
            else (cur ::.) <$> splitPathFrom InKey EmptyString rest
          else if decide (c = "["%char) then
            if decide (cur = EmptyString) then None
            else (cur ::.) <$> splitPathFrom InIndex EmptyString rest
          else if decide (c = "]"%char) then None
          else splitPathFrom InKey (snoc cur c) rest
      | InIndex =>
          if decide (c = "]"%char) then
            if decide (cur = EmptyString) then None
            else (cur ::.) <$> splitPathFrom AfterIndex EmptyString rest
          else if isDigit c then splitPathFrom InIndex (snoc cur c) rest
          else None
      | AfterIndex =>
          if decide (c = "."%char) then splitPathFrom InKey EmptyString rest
          else if decide (c = "["%char)
          then splitPathFrom InIndex EmptyString rest
          else None
      end
  end.

Definition splitPath (path : string) : option (list string) :=
  splitPathFrom InKey EmptyString path.

(** The result of a walk: the object holding the last segment, that
    segment, the value found there, and [pd_plug], which gives the root
    back once the holding object has been changed (the source changes
    [leaf.parent] in place; the root sees the change through the
    references between the objects). *)
Record PathData : Type := MkPathData {
  pd_parent : Errors;
  pd_key : string;
  pd_value : option ErrorTree;
  pd_plug : Errors -> Errors
}.

(** Modelled from the spec: the walk of traversal.js, which is not among
    the translated sources.  Section 4.1: the walk follows the path from the
    root; at an intermediate segment whose value is [undefined] it calls
    the hook, which may create and attach a container and return it, and
    the walk stops with [undefined] when the hook returns nothing; at the
    last segment it returns the triple (parent, key, value).  The hook is
    given the parent, the key and the value and answers with the parent as
    it leaves it; what it returns to the walk is the entry it attached
    under the key, if any.  The second component of the result is the root
    after the hook's work. *)
Fixpoint traversePath (obj : Errors) (realPath : list string)
    (modifier : Errors -> string -> option ErrorTree -> Errors)
    : Outcome (Errors * option PathData) :=
  match realPath with
  | [] => Done (obj, None)
  | key :: rest =>
      match rest with
      | [] =>
          Done (obj, Some {| pd_parent := obj; pd_key := key;
                             pd_value := obj !! key;
                             pd_plug := fun p => p |})
      | _ :: _ =>
          let parent :=
            match obj !! key with
            | None => modifier obj key None
            | Some _ => obj
            end in
          match parent !! key with
          | None => Done (parent, None)
          | Some (ErrArr _) => IllTyped
          | Some (ErrObj child) =>
              match traversePath child rest modifier with
              | Done (child', leaf) =>
                  Done (<[key := ErrObj child']> parent,
                        (fun pd =>
                           {| pd_parent := pd_parent pd; pd_key := pd_key pd;
                              pd_value := pd_value pd;
                              pd_plug := fun p =>
                                <[key := ErrObj (pd_plug pd p)]> parent |})
                        <$> leaf)
              | MalformedPath => MalformedPath
              | IllTyped => IllTyped
              end
          end
      end
  end.

(** The hook [setError] passes to the walk (lines 214-217):
    [if (value === undefined) parent[key] = {}; return parent[key];] *)
Definition createMissing (parent : Errors) (key : string)
    (value : option ErrorTree) : Errors :=
  match value with
  | None => <[key := ErrObj ∅]> parent
  | Some _ => parent
  end.

(** Lines 208-210, the form-level branch.  A missing [_errors] starts as
    the empty list; [concat] needs the existing value to be a list. *)
Definition setRootErrors (errs : Errors) (errArr : list string)
    (options : SetErrorOptions) : Outcome Errors :=
  if truthy (overwrite options) then Done (<["_errors" := ErrArr errArr]> errs)
  else
    match errs !! "_errors" with
    | None => Done (<["_errors" := ErrArr ([] ++ errArr)]> errs)
    | Some (ErrArr old) => Done (<["_errors" := ErrArr (old ++ errArr)]> errs)
    | Some (ErrObj _) => IllTyped
    end.

(** Lines 220-221: the value written at the leaf. *)
Definition leafValue (value : option ErrorTree) (errArr : list string)
    (options : SetErrorOptions) : ErrorTree :=
  match value with
  | Some (ErrArr old) =>
      if negb (truthy (overwrite options)) then ErrArr (old ++ errArr)
      else ErrArr errArr
  | _ => ErrArr errArr
  end.

(** Lines 214-222: walk to the leaf, creating the objects on the way, and
    write the leaf; the result is the root afterwards. *)
Definition writeLeaf (errs : Errors) (realPath : list string)
    (errArr : list string) (options : SetErrorOptions) : Outcome Errors :=
  match traversePath errs realPath createMissing with
  | Done (_, Some leaf) =>
      Done (pd_plug leaf
              (<[pd_key leaf := leafValue (pd_value leaf) errArr options]>
                 (pd_parent leaf)))
  | Done (root, None) => Done root
  | MalformedPath => MalformedPath
  | IllTyped => IllTyped
  end.

(** Lines 211-223, the branch of a non-empty path. *)
Definition setPathErrors (errs : Errors) (path : string)
    (errArr : list string) (options : SetErrorOptions) : Outcome Errors :=
  match splitPath path with
  | None => MalformedPath
  | Some realPath => writeLeaf errs realPath errArr options
  end.

(** Lines 189-227.  The form's [errors] is always an object, so the guard
    of line 206 never fires. *)
Definition setError (form : SuperValidated) (args : SetErrorArgs)
    : Outcome ActionResult :=
  let '(path, error, options) := unifySetError args in
  let errArr := errArrOf error in
  let newErrors :=
    if decide (path = EmptyString)
    then setRootErrors (errors form) errArr options
    else setPathErrors (errors form) path errArr options in
  match newErrors with
  | Done errs =>
      Done (ActionFailure (default 400 (status options))
              {| form_id := form_id form; valid := false;
                 posted := posted form; errors := errs; data := data form;
                 constraints := constraints form;
                 form_message := form_message form |})
  | MalformedPath => MalformedPath
  | IllTyped => IllTyped
  end.

(** *** Reading the error tree

    [getPath errs [a; b]] is [errs.a.b]; reading below a message list
    gives nothing. *)
Fixpoint getNode (t : ErrorTree) (path : list string) : option ErrorTree :=
  match path with
  | [] => Some t
  | key :: rest =>
      match t with
      | ErrObj fields => fields !! key ≫= fun child => getNode child rest
      | ErrArr _ => None
      end
  end.

Definition getPath (errs : Errors) (path : list string) : option ErrorTree :=
  getNode (ErrObj errs) path.

(** The messages stored at a node: those of a message list, none
    otherwise. *)
Definition messagesAt (errs : Errors) (path : list string) : list string :=
  match getPath errs path with
  | Some (ErrArr l) => l
  | _ => []
  end.

(** The error tree has the shape the path expects, as the types
    [ValidationErrors<T>] and [StringPathLeaves<T>] promise: every node the
    walk passes through on its way to the leaf is an object when it is
    there at all. *)
Fixpoint fitsPath (errs : Errors) (realPath : list string) : bool :=
  match realPath with
  | [] => true
  | key :: rest =>
      match rest with
      | [] => true
      | _ :: _ =>
          match errs !! key with
          | None => true
          | Some (ErrArr _) => false
          | Some (ErrObj child) => fitsPath child rest
          end
      end
  end.

(** A call of [setError] within the declared types: the path is
    well-formed and fits the error tree; at the root, [_errors] is a
    message list when it is there (an overwriting call does not read it). *)
Definition fitsCall (form : SuperValidated) (args : SetErrorArgs) : bool :=
  let '(path, _, options) := unifySetError args in
  if decide (path = EmptyString) then
    truthy (overwrite options) ||
    match errors form !! "_errors" with
    | Some (ErrObj _) => false
    | _ => true
    end
  else
    match splitPath path with
    | None => false
    | Some realPath => fitsPath (errors form) realPath
    end.

(** ** A concrete instance

    The schema of [routes/(v2)/v2/schemasafe-types/schema.ts] with simple
    stand-ins for the collaborators; the examples and the concrete lemmas
    below are evaluated on it. *)

Module Demo.

(** Modelled from the spec: the input normalizer of formData.js, which
    is not among the translated sources.  Section 4.2: an absent source
    gives no data and is not posted; a plain partial record is passed on
    and is not posted; a submitted payload is posted, its reserved
    identifier field becomes the id and is not part of the data.  The
    entries are kept as strings: the schemas used here declare string
    fields only, for which section 4.2 asks for no coercion.  A query
    string is not a submitted body. *)
Definition parseRequest (d : Source) (js : JSONSchema)
    (options : option SuperValidateOptions) : ParsedData :=
  match d with
  | SrcUndefined | SrcNull =>
      {| parsed_id := None; parsed_data := None; parsed_posted := false |}
  | SrcPartial r =>
      {| parsed_id := None; parsed_data := Some r; parsed_posted := false |}
  | SrcFormData fid entries =>
      {| parsed_id := fid;
         parsed_data := Some (list_to_map (prod_map id JStr <$> entries));
         parsed_posted := true |}
  | SrcSearchParams fid entries =>
      {| parsed_id := fid;
         parsed_data := Some (list_to_map (prod_map id JStr <$> entries));
         parsed_posted := false |}
  end.

(** Modelled from the spec: the error tree builder of errors.js, which
    is not among the translated sources.  Section 4.5: the message of an
    issue at path [a.b] is appended, in the order received, to
    [errors.a.b._errors], the nodes on the way being created on demand;
    an issue with the empty path lands in the root's [_errors]. *)
Definition addIssue (errs : Errors) (i : Issue) : Errors :=
  match traversePath errs (issue_path i ++ ["_errors"]) createMissing with
  | Done (_, Some leaf) =>
      pd_plug leaf
        (<[pd_key leaf :=
             leafValue (pd_value leaf) [issue_message i]
                       {| overwrite := None; status := None |}]>
           (pd_parent leaf))
  | _ => errs
  end.

(** Modelled from the spec: [mapErrors] of errors.js places the issues
    one after the other, starting from the empty tree (section 4.5). *)
Definition mapErrors (l : list Issue) (objects : JsVal) : Errors :=
  foldl addIssue ∅ l.

(** A generator that hands out six-letter identifiers in turn. *)
Definition nanoid (n : nat) : string * nat :=
  (String (ascii_of_nat (97 + n mod 26)) "bc123", S n).

(** A validator is the function it computes. *)
Definition validate (v : Rec -> ValidationResult) (d : Rec)
    : ValidationResult := v d.

Definition stringProp (dflt : option string) (fmt : option string)
    : JSONSchema :=
  {| type_ := Some "string"; format := fmt; default_ := JStr <$> dflt;
     properties := None; required := []; additionalProperties := None |}.

(** [schema] of schema.ts. *)
Definition schema : JSONSchema :=
  {| type_ := Some "object"; format := None; default_ := None;
     properties :=
       Some {[ "name" := stringProp (Some "Hello world!") None;
               "email" := stringProp None (Some "email") ]};
     required := ["email"];
     additionalProperties := Some (inl false) |}.

Definition hasAt (s : string) : bool :=
  bool_decide ("@"%char ∈ list_ascii_of_string s).

(** A stand-in for the schema's validator: [email] is required and must
    look like an address. *)
Definition checkEmail (d : Rec) : ValidationResult :=
  match d !! "email" with
  | Some (JStr s) =>
      if hasAt s then Success d
      else Failure [ {| issue_path := ["email"]; issue_message := "format" |} ]
  | _ => Failure [ {| issue_path := []; issue_message := "required" |} ]
  end.

Definition adapter : MappedValidationAdapter (Rec -> ValidationResult) :=
  {| defaults :=
       {[ "name" := JStr "Hello world!"; "email" := JStr EmptyString ]};
     jsonSchema := schema;
     adapter_constraints := JObj [("email", JObj [("required", JBool true)])];
     objects := JObj [];
     validator := checkEmail;
     customValidator := None |}.

(** [superValidate] on this instance; an adapter is already complete. *)
Definition mapAdapter (a : MappedValidationAdapter (Rec -> ValidationResult))
  := a.

Definition run (args : SuperValidateArgs _) (g : nat) :=
  superValidate nanoid validate mapAdapter parseRequest mapErrors args g.

(** The same schema without its [additionalProperties] field, and a
    schema that declares no properties. *)
Definition schemaNoAP : JSONSchema :=
  {| type_ := type_ schema; format := None; default_ := None;
     properties := properties schema; required := required schema;
     additionalProperties := None |}.

Definition schemaNoProps : JSONSchema :=
  {| type_ := Some "object"; format := None; default_ := None;
     properties := None; required := [];
     additionalProperties := Some (inl false) |}.

Definition noOptions : SuperValidateOptions :=
  {| opt_errors := None; opt_id := None; opt_preprocessed := None;
     opt_defaults := None; opt_jsonSchema := None; opt_strict := None |}.

Definition withId (i : string) : SuperValidateOptions :=
  {| opt_errors := None; opt_id := Some i; opt_preprocessed := None;
     opt_defaults := None; opt_jsonSchema := None; opt_strict := None |}.

Definition withSchema (js : JSONSchema) : SuperValidateOptions :=
  {| opt_errors := None; opt_id := None; opt_preprocessed := None;
     opt_defaults := None; opt_jsonSchema := Some js; opt_strict := None |}.

(** A record with a key the schema does not declare. *)
Definition extraInput : Rec :=
  {[ "name" := JStr "Ada"; "email" := JStr "ada@example.org";
     "foo" := JStr "bar" ]}.

(** The posted input of the scenario of section 8. *)
Definition postedInput : Source :=
  SrcFormData None [("name", EmptyString); ("email", "not-an-email")].

(** A form that already failed validation. *)
Definition invalidForm : SuperValidated :=
  {| form_id := Some "abc123"; valid := false; posted := true;
     errors := {[ "email" := ErrArr ["format"] ]};
     data := {[ "name" := JStr EmptyString; "email" := JStr "nobody" ]};
     constraints := JObj []; form_message := None |}.

Definition emptyForm : SuperValidated :=
  {| form_id := Some "abc123"; valid := true; posted := false;
     errors := ∅; data := ∅; constraints := JObj [];
     form_message := None |}.

End Demo.

(** ** The written specification's vocabulary *)

(** The key is one of the schema's declared properties. *)
Definition declared (js : JSONSchema) (key : string) : Prop :=
  is_Some (declaredProps js !! key).

(** Section 4.4, step 6: a declared key is "filled from the
    validated-or-merged data, else from defaults, else omitted". *)
Definition filledFrom (finalData dflt : Rec) (key : string) : option JsVal :=
  match finalData !! key with
  | Some v => Some v
  | None =>
      match dflt !! key with
      | Some v => if isDefined v then Some v else None
      | None => None
      end
  end.

(** Section 8, idempotence of defaults: the defaults tree "restricted to
    declared keys". *)
Definition restrictToDeclared (js : JSONSchema) (dflt : Rec) : Rec :=
  filter (fun kv => declared js kv.1) dflt.

(** Section 4.4, step 7, as written: "explicit caller-supplied id > id
    parsed from the input > (if not a posted request) a freshly generated
    identifier > undefined for posted requests with no id". *)
Definition claimedId (explicit parsedId : option string) (isPosted : bool)
    (fresh : string) : option string :=
  match explicit with
  | Some i => Some i
  | None =>
      match parsedId with
      | Some i => Some i
      | None => if isPosted then None else Some fresh
      end
  end.

(** Section 4.4, step 3: the defaults overlaid key by key with the
    normalized data, the normalized data winning. *)
Definition overlay (dflt normalized : Rec) (key : string) : option JsVal :=
  match normalized !! key with
  | Some v => Some v
  | None => dflt !! key
  end.
(** ** Further vocabulary *)

(** What one round of the loop of lines 106-109 assigns under a key, if
    anything: [finalData[key]] when [key in finalData], else
    [defaults[key]] when that is not [undefined]. *)
Definition assignedValue (finalData dflt : Rec) (key : string)
    : option JsVal :=
  if hasKey key finalData then Some (getProp finalData key)
  else if isDefined (getProp dflt key) then Some (getProp dflt key)
  else None.

(** The own property [key] of the defaults when its value is not
    [undefined]. *)
Definition definedDefault (dflt : Rec) (key : string) : option JsVal :=
  match dflt !! key with
  | Some v => if isDefined v then Some v else None
  | None => None
  end.

(** The error tree with [v] at the path, the objects on the way to it
    created where they are missing: what lines 212-222 of [setError]
    leave behind on a tree that fits the path. *)
Fixpoint setNode (errs : Errors) (path : list string) (v : ErrorTree)
    : Errors :=
  match path with
  | [] => errs
  | key :: rest =>
      match rest with
      | [] => <[key := v]> errs
      | _ :: _ =>
          match errs !! key with
          | Some (ErrObj child) => <[key := ErrObj (setNode child rest v)]> errs
          | _ => <[key := ErrObj (setNode ∅ rest v)]> errs
          end
      end
  end.

(** Two paths part ways: they agree up to a place where both go on, with
    different segments. *)
Fixpoint diverge (p q : list string) : bool :=
  match p, q with
  | k1 :: p', k2 :: q' => if decide (k1 = k2) then diverge p' q' else true
  | _, _ => false
  end.

(** ** The hyperjump adapter ([adapters/hyperjump.ts]) *)

(** [s.split(sep)] of JavaScript for a separator of one character: the
    pieces between the separators, in order; there is always at least
    one piece. *)
Fixpoint split (s : string) (sep : ascii) : list string :=
  match s with
  | EmptyString => [EmptyString]
  | String c rest =>
      if decide (c = sep) then EmptyString :: split rest sep
      else
        match split rest sep with
        | piece :: pieces => String c piece :: pieces
        | [] => [String c EmptyString]
        end
  end.

(** One unit of the validator's output in its BASIC format, and the
    output as a whole; [errors] may be missing. *)
Record OutputUnit : Type := MkOutputUnit {
  keyword : string;
  absoluteKeywordLocation : string;
  instanceLocation : string
}.

Record Output : Type := MkOutput {
  output_valid : bool;
  output_errors : option (list OutputUnit)
}.

(** Line 52: [instanceLocation.split('/').slice(1)]. *)
Definition pathOfLocation (location : string) : list string :=
  drop 1 (split location "/").

(** Lines 50-53: the issue made from one output unit. *)
Definition issueOfUnit (u : OutputUnit) : Issue :=
  {| issue_message := keyword u;
     issue_path := pathOfLocation (instanceLocation u) |}.

Section Hyperjump.

(** The work of @hyperjump/json-schema on the adapter's schema document
    (lines 38-42: [getSchema], [compile], [interpret] with the BASIC
    output format, [unloadDialect]) is a parameter. *)
Variable interpret : Rec -> Output.

(** Lines 37-56: the [validate] method of the adapter. *)
Definition hyperjumpValidate (d : Rec) : ValidationResult :=
  let output := interpret d in
  if output_valid output then Success d
  else Failure (issueOfUnit <$> default [] (output_errors output)).

End Hyperjump.

(** *** The pattern [Email]

    Regular expressions with character classes, matched by derivatives.
    [test r s] is [r.test(s)] for a pattern anchored at both ends.
    Characters are bytes; a character outside ASCII is in none of the
    classes below, as in the source. *)
Inductive Regex : Type :=
  | RNone
  | REps
  | RClass (p : ascii -> bool)
  | RSeq (r1 r2 : Regex)
  | RAlt (r1 r2 : Regex)
  | RStar (r : Regex).

(** [r+] and [r?] *)
Definition RPlus (r : Regex) : Regex := RSeq r (RStar r).
Definition ROpt (r : Regex) : Regex := RAlt r REps.

Fixpoint nullable (r : Regex) : bool :=
  match r with
  | RNone => false
  | REps => true
  | RClass _ => false
  | RSeq r1 r2 => nullable r1 && nullable r2
  | RAlt r1 r2 => nullable r1 || nullable r2
  | RStar _ => true
  end.

Fixpoint deriv (c : ascii) (r : Regex) : Regex :=
  match r with
  | RNone => RNone
  | REps => RNone
  | RClass p => if p c then REps else RNone
  | RSeq r1 r2 =>
      if nullable r1 then RAlt (RSeq (deriv c r1) r2) (deriv c r2)
      else RSeq (deriv c r1) r2
  | RAlt r1 r2 => RAlt (deriv c r1) (deriv c r2)
  | RStar r1 => RSeq (deriv c r1) (RStar r1)
  end.

Fixpoint matchesList (r : Regex) (s : list ascii) : bool :=
  match s with
  | [] => nullable r
  | c :: rest => matchesList (deriv c r) rest
  end.

Definition test (r : Regex) (s : string) : bool :=
  matchesList r (list_ascii_of_string s).

Definition inRange (lo hi : nat) (c : ascii) : bool :=
  let n := nat_of_ascii c in (lo <=? n)%nat && (n <=? hi)%nat.

(** [[a-z0-9]] under the [i] flag: letters of both cases and digits. *)
Definition alnumChar (c : ascii) : bool :=
  inRange 97 122 c || inRange 65 90 c || inRange 48 57 c.

(** [[a-z0-9!#$%&'*+/=?^_`{|}~-]] under the [i] flag *)
Definition atomChar (c : ascii) : bool :=
  alnumChar c ||
  bool_decide (c ∈ list_ascii_of_string "!#$%&'*+/=?^_`{|}~-").

(** [[a-z0-9-]] under the [i] flag *)
Definition labelChar (c : ascii) : bool :=
  alnumChar c || bool_decide (c = "-"%char).

Definition isChar (d : ascii) (c : ascii) : bool := bool_decide (c = d).

(** [[a-z0-9](?:[a-z0-9-]*[a-z0-9])?] *)
Definition emailLabel : Regex :=
  RSeq (RClass alnumChar)
       (ROpt (RSeq (RStar (RClass labelChar)) (RClass alnumChar))).

(** [[a-z0-9!#...~-]+(?:\.[a-z0-9!#...~-]+)*] *)
Definition emailLocal : Regex :=
  RSeq (RPlus (RClass atomChar))
       (RStar (RSeq (RClass (isChar ".")) (RPlus (RClass atomChar)))).

(** [(?:label\.)+label] *)
Definition emailDomain : Regex :=
  RSeq (RPlus (RSeq emailLabel (RClass (isChar ".")))) emailLabel.

(** Lines 11-12: the constant [Email],
    [/^local@domain$/i] with the parts above. *)
Definition Email : Regex :=
  RSeq emailLocal (RSeq (RClass (isChar "@")) emailDomain).

(** What it means for a string to belong to a pattern. *)
Inductive Matches : Regex -> list ascii -> Prop :=
  | MEps : Matches REps []
  | MClass p c : p c = true -> Matches (RClass p) [c]
  | MSeq r1 r2 s1 s2 :
      Matches r1 s1 -> Matches r2 s2 -> Matches (RSeq r1 r2) (s1 ++ s2)
  | MAltL r1 r2 s : Matches r1 s -> Matches (RAlt r1 r2) s
  | MAltR r1 r2 s : Matches r2 s -> Matches (RAlt r1 r2) s
  | MStarNil r : Matches (RStar r) []
  | MStarApp r s1 s2 :
      Matches r s1 -> Matches (RStar r) s2 -> Matches (RStar r) (s1 ++ s2).

(** Every class of the pattern only has characters with the property. *)
Fixpoint classesWithin (P : ascii -> Prop) (r : Regex) : Prop :=
  match r with
  | RNone | REps => True
  | RClass p => forall c, p c = true -> P c
  | RSeq r1 r2 | RAlt r1 r2 => classesWithin P r1 /\ classesWithin P r2
  | RStar r1 => classesWithin P r1
  end.

(** The location string of a path of keys: a prefix (the marker [#] of
    the output, or nothing) followed by each key after a slash. *)
Definition locationOf (prefix : string) (segs : list string) : string :=
  prefix ++ foldr (fun seg acc => String "/" (seg ++ acc)) EmptyString segs.

(** The character occurs in the string. *)
Definition occursIn (c : ascii) (s : string) : Prop :=
  c ∈ list_ascii_of_string s.

(** A non-empty string of letters and digits. *)
Definition alnumWord (s : string) : Prop :=
  s ≠ EmptyString ∧
  Forall (fun c => alnumChar c = true) (list_ascii_of_string s).

(** ** Further concrete cases *)

Module Cases.

(** The schema of schema.ts with [additionalProperties: true]. *)
Definition schemaOpen : JSONSchema :=
  {| type_ := type_ Demo.schema; format := None; default_ := None;
     properties := properties Demo.schema; required := required Demo.schema;
     additionalProperties := Some (inl true) |}.

Definition errorsOff : SuperValidateOptions :=
  {| opt_errors := Some false; opt_id := None; opt_preprocessed := None;
     opt_defaults := None; opt_jsonSchema := None; opt_strict := None |}.

Definition strict : SuperValidateOptions :=
  {| opt_errors := None; opt_id := None; opt_preprocessed := None;
     opt_defaults := None; opt_jsonSchema := None; opt_strict := Some true |}.

(** A stand-in for the validator library on the schema of schema.ts: the
    address must be a string in the format [Email]. *)
Definition interpret (d : Rec) : Output :=
  match d !! "email" with
  | Some (JStr s) =>
      if test Email s then {| output_valid := true; output_errors := None |}
      else
        {| output_valid := false;
           output_errors :=
             Some [ {| keyword := "https://json-schema.org/keyword/format";
                       absoluteKeywordLocation := "#/properties/email/format";
                       instanceLocation := "#/email" |} ] |}
  | _ =>
      {| output_valid := false;
         output_errors :=
           Some [ {| keyword := "https://json-schema.org/keyword/required";
                     absoluteKeywordLocation := "#/required";
                     instanceLocation := "#" |} ] |}
  end.

(** The adapter of schema.ts with the hyperjump [validate] as its
    validator. *)
Definition adapter : MappedValidationAdapter (Rec -> ValidationResult) :=
  {| defaults := defaults Demo.adapter;
     jsonSchema := Demo.schema;
     adapter_constraints := adapter_constraints Demo.adapter;
     objects := JObj [];
     validator := Demo.checkEmail;
     customValidator := Some (hyperjumpValidate interpret) |}.

(** The schema of schema.ts with one more declared property, an optional
    string named [constructor], and the adapter for it: the new property
    has no default. *)
Definition schemaConstructor : JSONSchema :=
  {| type_ := Some "object"; format := None; default_ := None;
     properties :=
       Some {[ "name" := Demo.stringProp (Some "Hello world!") None;
               "email" := Demo.stringProp None (Some "email");
               "constructor" := Demo.stringProp None None ]};
     required := ["email"];
     additionalProperties := Some (inl false) |}.

Definition adapterConstructor
    : MappedValidationAdapter (Rec -> ValidationResult) :=
  {| defaults := defaults Demo.adapter;
     jsonSchema := schemaConstructor;
     adapter_constraints := adapter_constraints Demo.adapter;
     objects := JObj [];
     validator := Demo.checkEmail;
     customValidator := None |}.

(** A form with an error nested below [tags]. *)
Definition nestedForm : SuperValidated :=
  {| form_id := Some "abc123"; valid := false; posted := true;
     errors :=
       {[ "tags" :=
            ErrObj {[ "0" := ErrObj {[ "name" := ErrArr ["too short"] ]} ]} ]};
     data := ∅; constraints := JObj []; form_message := None |}.

End Cases.

(** * Theorems *)

(** ** Key filtering *)

Lemma elem_of_declaredKeys js key :
  key ∈ declaredKeys js ↔ declared js key.
Proof.
  unfold declaredKeys, declared. rewrite list_elem_of_fmap. split.
  - intros [[k v] [-> Hin]]. apply elem_of_map_to_list in Hin. eauto.
  - intros [v Hv]. exists (key, v). split; [done|].
    by apply elem_of_map_to_list.
Qed.

Lemma not_inherited_proto key : inherited key = false → key ≠ "__proto__".
Proof. intros Hi ->. done. Qed.

Lemma hasKey_own key o : is_Some (o !! key) → hasKey key o = true.
Proof. intros Hs. unfold hasKey. by rewrite bool_decide_eq_true_2. Qed.

Lemma hasKey_inherited key o : inherited key = true → hasKey key o = true.
Proof. intros Hi. unfold hasKey. rewrite Hi. apply orb_true_r. Qed.

Lemma hasKey_not_inherited key o :
  inherited key = false → hasKey key o = bool_decide (is_Some (o !! key)).
Proof. intros Hi. unfold hasKey. rewrite Hi. apply orb_false_r. Qed.

Lemma getProp_not_inherited o key :
  inherited key = false → getProp o key = default JUndefined (o !! key).
Proof. intros Hi. unfold getProp. rewrite Hi. by destruct (o !! key). Qed.

Lemma setProp_lookup_ne o key v k :
  k ≠ key → setProp o key v !! k = o !! k.
Proof.
  intros Hne. unfold setProp. case_decide; [done|].
  by rewrite lookup_insert_ne.
Qed.

Lemma setProp_lookup_eq o key v :
  key ≠ "__proto__" → setProp o key v !! key = Some v.
Proof.
  intros Hne. unfold setProp. rewrite decide_False by (intros [? _]; done).
  by rewrite lookup_insert_eq.
Qed.

Lemma setProp_proto o v :
  o !! "__proto__" = None → setProp o "__proto__" v = o.
Proof. intros Ho. unfold setProp. by rewrite decide_True. Qed.

(** Without an inherited member in the way, what the loop assigns is the
    own value of the data, else the defined own default. *)
Lemma assignedValue_not_inherited finalData dflt key :
  inherited key = false →
  assignedValue finalData dflt key = filledFrom finalData dflt key.
Proof.
  intros Hi. unfold assignedValue, filledFrom.
  rewrite hasKey_not_inherited, !getProp_not_inherited by done.
  destruct (finalData !! key) as [v|] eqn:Hf.
  - by rewrite bool_decide_eq_true_2 by eauto.
  - rewrite bool_decide_eq_false_2 by (intros [? ?]; done).
    by destruct (dflt !! key) as [[]|].
Qed.

(** An inherited member counts as present: the loop assigns what
    [finalData[key]] reads, the own value or the member itself. *)
Lemma assignedValue_inherited finalData dflt key :
  inherited key = true →
  assignedValue finalData dflt key =
    Some (default (JNative key) (finalData !! key)).
Proof.
  intros Hi. unfold assignedValue, getProp.
  rewrite hasKey_inherited, Hi by done. by destruct (finalData !! key).
Qed.

Lemma stripStep_lookup finalData dflt out key k :
  out !! "__proto__" = None →
  stripStep finalData dflt out key !! k =
    if decide (k = key ∧ k ≠ "__proto__") then
      match assignedValue finalData dflt k with
      | Some v => Some v
      | None => out !! k
      end
    else out !! k.
Proof.
  intros Hout. unfold stripStep, assignedValue.
  destruct (decide (k = key ∧ k ≠ "__proto__")) as [[-> Hp]|Hne].
  - repeat case_match; by rewrite ?setProp_lookup_eq.
  - destruct (decide (k = key)) as [->|Hk].
    + assert (key = "__proto__") as ->
        by (destruct (decide (key = "__proto__")); [done|by destruct Hne]).
      repeat case_match; by rewrite ?setProp_proto.
    + repeat case_match; by rewrite ?setProp_lookup_ne.
Qed.

Lemma foldl_stripStep_lookup finalData dflt keys out k :
  out !! "__proto__" = None →
  foldl (stripStep finalData dflt) out keys !! k =
    if decide (k ∈ keys ∧ k ≠ "__proto__") then
      match assignedValue finalData dflt k with
      | Some v => Some v
      | None => out !! k
      end
    else out !! k.
Proof.
  revert out. induction keys as [|key keys IH]; intros out Hout.
  - rewrite decide_False; [done|]. intros [Hin _]. by apply not_elem_of_nil in Hin.
  - cbn [foldl].
    assert (Hout' : stripStep finalData dflt out key !! "__proto__" = None).
    { rewrite stripStep_lookup by done.
      by rewrite decide_False by (intros [_ ?]; done). }
    rewrite IH by done. rewrite stripStep_lookup by done.
    destruct (decide (k ≠ "__proto__")) as [Hp|Hp].
    + destruct (decide (k = key)) as [->|Hk].
      * rewrite (decide_True (P := key ∈ key :: keys ∧ _))
          by (split; [apply list_elem_of_here|done]).
        rewrite (decide_True (P := key = key ∧ _)) by done.
        destruct (assignedValue finalData dflt key); by case_decide.
      * rewrite (decide_False (P := k = key ∧ _)) by (intros [? _]; done).
        destruct (decide (k ∈ keys)) as [Hin|Hnin].
        -- rewrite decide_True by done.
           rewrite decide_True by (split; [by apply list_elem_of_further|done]).
           done.
        -- rewrite decide_False by (intros [? _]; done).
           rewrite decide_False; [done|].
           rewrite elem_of_cons. by intros [[?|?] _].
    + rewrite !decide_False by (intros [_ ?]; done). done.
Qed.

(** The stripped record, key by key: a declared key holds what the loop
    assigns under it, except [__proto__], which never becomes an own
    property; an undeclared key is absent. *)
Lemma stripKeys_lookup js finalData dflt k :
  stripKeys js finalData dflt !! k =
    if decide (declared js k ∧ k ≠ "__proto__")
    then assignedValue finalData dflt k
    else None.
Proof.
  unfold stripKeys. rewrite foldl_stripStep_lookup by apply lookup_empty.
  rewrite lookup_empty.
  destruct (decide (declared js k ∧ _)) as [[Hd Hp]|Hn].
  - rewrite decide_True by (by rewrite elem_of_declaredKeys).
    by destruct (assignedValue _ _ _).
  - rewrite decide_False; [done|]. by rewrite elem_of_declaredKeys.
Qed.

Lemma stripKeys_declared js finalData dflt k :
  declared js k → inherited k = false →
  stripKeys js finalData dflt !! k = filledFrom finalData dflt k.
Proof.
  intros Hd Hi. rewrite stripKeys_lookup.
  rewrite decide_True by (split; [done|by apply not_inherited_proto]).
  by apply assignedValue_not_inherited.
Qed.

Lemma stripKeys_undeclared js finalData dflt k :
  ¬ declared js k → stripKeys js finalData dflt !! k = None.
Proof.
  intros Hd. rewrite stripKeys_lookup.
  by rewrite decide_False by (intros [? _]; done).
Qed.

Lemma backfill_covered dflt keys out :
  (∀ k, k ∈ keys → is_Some (out !! k)) →
  foldl (backfillStep dflt) out keys = out.
Proof.
  induction keys as [|key keys IH]; intros Hcov; [done|].
  cbn [foldl]. unfold backfillStep at 2.
  rewrite hasKey_own by (apply Hcov, list_elem_of_here).
  cbn [negb andb]. apply IH. intros k Hk. by apply Hcov, list_elem_of_further.
Qed.

Lemma backfill_self dflt : backfill dflt dflt = dflt.
Proof.
  apply backfill_covered. intros k Hk.
  apply list_elem_of_fmap in Hk as [[k' v] [-> Hin]].
  apply elem_of_map_to_list in Hin. eauto.
Qed.

(** Stripping the defaults against themselves keeps their declared part,
    as long as no declared key is the name of an inherited member. *)
Lemma stripKeys_self js dflt :
  (∀ k, declared js k → inherited k = false) →
  stripKeys js dflt dflt = restrictToDeclared js dflt.
Proof.
  intros Hown. apply map_eq. intros k. unfold restrictToDeclared.
  destruct (decide (declared js k)) as [Hd|Hd].
  - rewrite stripKeys_declared by auto. unfold filledFrom.
    destruct (dflt !! k) as [v|] eqn:Hk.
    + symmetry. by apply map_lookup_filter_Some.
    + symmetry. apply map_lookup_filter_None. left. done.
  - rewrite stripKeys_undeclared by done.
    symmetry. apply map_lookup_filter_None. right. intros v _. done.
Qed.

Lemma mergeData_lookup options dflt pd k :
  mergeData options dflt pd !! k =
    if truthy (options ≫= opt_strict) then default ∅ pd !! k
    else overlay dflt (default ∅ pd) k.
Proof.
  unfold mergeData, overlay. rewrite lookup_union.
  destruct (truthy _).
  - rewrite lookup_empty. by destruct (default ∅ pd !! k).
  - destruct (default ∅ pd !! k), (dflt !! k); done.
Qed.

Lemma mergeData_strict options dflt pd :
  truthy (options ≫= opt_strict) = true →
  mergeData options dflt pd = default ∅ pd.
Proof.
  intros Hs. unfold mergeData. rewrite Hs. apply (right_id_L ∅ (∪)).
Qed.

Section PipelineFacts.

Context {Rng : Type} (nanoid : Rng → string * Rng).
Context {Validator : Type} (validate : Validator → Rec → ValidationResult).
Context {ValidationAdapter : Type}
        (mapAdapter : ValidationAdapter → MappedValidationAdapter Validator).
Context (parseRequest :
           Source → JSONSchema → option SuperValidateOptions → ParsedData).
Context (mapErrors : list Issue → JsVal → Errors).

Abbreviation superValidate' :=
  (superValidate nanoid validate mapAdapter parseRequest mapErrors).

(** The form [superValidate] returns, field by field. *)
Lemma superValidate_unfold args g :
  superValidate' args g =
    let r := resolveId nanoid (parsedOf mapAdapter parseRequest args)
                       (callOptions args) g in
    let status := statusFor validate mapAdapter parseRequest args in
    ({| form_id := r.1;
        valid := success status;
        posted := parsed_posted (parsedOf mapAdapter parseRequest args);
        errors :=
          if success status || negb (callAddErrors args) then ∅
          else mapErrors (issues status)
                         (objects (validationOf mapAdapter args));
        data :=
          outputDataOf (callSchema mapAdapter args)
            (finalDataOf validate mapAdapter parseRequest args)
            (callDefaults mapAdapter args);
        constraints := adapter_constraints (validationOf mapAdapter args);
        form_message := None |}, r.2).
Proof.
  destruct args; unfold superValidate; cbn [unifyArgs];
    unfold finalDataOf, statusFor, mergedOf, hasDataOf, parsedOf,
      callAddErrors, callSchema, callDefaults, validationOf,
      callOptions, callAdapter, callData; cbn [unifyArgs fst snd];
    by destruct (resolveId _ _ _ _).
Qed.

Lemma superValidate_data args g :
  data (superValidate' args g).1 =
    outputDataOf (callSchema mapAdapter args)
      (finalDataOf validate mapAdapter parseRequest args)
      (callDefaults mapAdapter args).
Proof. by rewrite superValidate_unfold. Qed.


Lemma superValidate_valid args g :
  valid (superValidate' args g).1 =
    success (statusFor validate mapAdapter parseRequest args).
Proof. by rewrite superValidate_unfold. Qed.

(** The data under the stripping policy, key by key. *)
Lemma superValidate_stripped args g key :
  truthyAP (additionalProperties (callSchema mapAdapter args)) = false →
  data (superValidate' args g).1 !! key =
    if decide (declared (callSchema mapAdapter args) key ∧ key ≠ "__proto__")
    then assignedValue (finalDataOf validate mapAdapter parseRequest args)
                       (callDefaults mapAdapter args) key
    else None.
Proof.
  intros Hap. rewrite superValidate_data. unfold outputDataOf.
  rewrite Hap. cbn [negb]. apply stripKeys_lookup.
Qed.

(** Under the stripping policy a key the schema does not declare is
    absent, and a declared key that is not the name of a member of
    [Object.prototype] has the own value of the validated-or-merged data,
    else the defined own default, else is absent. *)
Lemma superValidate_stripped_own args g key :
  truthyAP (additionalProperties (callSchema mapAdapter args)) = false →
  (¬ declared (callSchema mapAdapter args) key →
     data (superValidate' args g).1 !! key = None) ∧
  (declared (callSchema mapAdapter args) key → inherited key = false →
     data (superValidate' args g).1 !! key =
       filledFrom (finalDataOf validate mapAdapter parseRequest args)
                  (callDefaults mapAdapter args) key).
Proof.
  intros Hap. rewrite superValidate_data. unfold outputDataOf.
  rewrite Hap. cbn [negb]. split.
  - by apply stripKeys_undeclared.
  - by apply stripKeys_declared.
Qed.

(** The stripping loop reads the schema's [properties] only: two schemas
    with the same [properties] that both select it give the same data. *)
Lemma outputDataOf_same_properties js js' finalData dflt :
  properties js' = properties js →
  truthyAP (additionalProperties js) = false →
  truthyAP (additionalProperties js') = false →
  outputDataOf js' finalData dflt = outputDataOf js finalData dflt.
Proof.
  intros Hp Hap Hap'. unfold outputDataOf. rewrite Hap, Hap'. cbn [negb].
  unfold stripKeys, declaredKeys, declaredProps. by rewrite Hp.
Qed.

Lemma callDefaults_adapter args :
  callOptions args ≫= opt_defaults = None →
  callDefaults mapAdapter args = defaults (validationOf mapAdapter args).
Proof. intros H. unfold callDefaults, defaultsOf. by rewrite H. Qed.

(** C1 (as amended).  The id of the returned form is the id parsed from
    the input when there is one; otherwise the caller's [options.id] when
    there is one; otherwise nothing for a posted input and a freshly
    generated identifier for an input that was not posted. *)
Theorem superValidate_id_priority args g :
  let parsed := parsedOf mapAdapter parseRequest args in
  form_id (superValidate' args g).1 =
    match parsed_id parsed with
    | Some i => Some i
    | None =>
        match callOptions args ≫= opt_id with
        | Some i => Some i
        | None =>
            if parsed_posted parsed then None
            else Some (formId nanoid g).1
        end
    end.
Proof.
  intros parsed. rewrite superValidate_unfold. cbn [form_id fst].
  fold parsed. unfold resolveId.
  destruct (parsed_id parsed); [done|].
  destruct (callOptions args ≫= opt_id); [done|].
  destruct (parsed_posted parsed); [done|].
  by destruct (formId nanoid g).
Qed.

(** C10.  When the schema has no [additionalProperties] field at all,
    the data is filtered exactly as for [additionalProperties: false]: a
    key the schema does not declare is absent from the data, whatever the
    input held; the data is the one the stripping loop gives for a schema
    with the same [properties] and [additionalProperties: false]; and a
    declared key other than [__proto__] holds what that loop assigns
    under it. *)
Theorem superValidate_additionalProperties_absent args g :
  additionalProperties (callSchema mapAdapter args) = None →
  (∀ key, ¬ declared (callSchema mapAdapter args) key →
     data (superValidate' args g).1 !! key = None) ∧
  (∀ js', additionalProperties js' = Some (inl false) →
     properties js' = properties (callSchema mapAdapter args) →
     data (superValidate' args g).1 =
       outputDataOf js' (finalDataOf validate mapAdapter parseRequest args)
                    (callDefaults mapAdapter args)) ∧
  (∀ key, declared (callSchema mapAdapter args) key → key ≠ "__proto__" →
     data (superValidate' args g).1 !! key =
       assignedValue (finalDataOf validate mapAdapter parseRequest args)
                     (callDefaults mapAdapter args) key).
Proof.
  intros Hap.
  assert (Hf : truthyAP (additionalProperties (callSchema mapAdapter args))
               = false) by (by rewrite Hap).
  split; [|split].
  - intros key Hd. rewrite superValidate_stripped by done.
    by rewrite decide_False by (intros [? _]; done).
  - intros js' Hap' Hp. rewrite superValidate_data. symmetry.
    apply outputDataOf_same_properties; [done|done|by rewrite Hap'].
  - intros key Hd Hp. rewrite superValidate_stripped by done.
    by rewrite decide_True.
Qed.

(** C6.  When the schema has no [properties] and [additionalProperties]
    is [false], the data of the returned form is the empty object,
    whatever the input and the defaults hold. *)
Theorem superValidate_no_properties args g :
  properties (callSchema mapAdapter args) = None →
  additionalProperties (callSchema mapAdapter args) = Some (inl false) →
  data (superValidate' args g).1 = ∅.
Proof.
  intros Hp Hap. apply map_eq. intros key. rewrite lookup_empty.
  rewrite superValidate_stripped by (by rewrite Hap).
  rewrite decide_False; [done|]. intros [Hd _]. revert Hd.
  unfold declared, declaredProps. rewrite Hp. cbn [default].
  rewrite lookup_empty. by intros [? ?].
Qed.

(** C4.  The record handed to the validator is the merged record of line
    88.  Outside strict mode it is the defaults (the adapter's, unless the
    caller overrides them with [options.defaults]) overlaid key by key with
    the normalized input, the input winning; in strict mode it is the
    normalized input as it is. *)
Theorem superValidate_merge_step args g :
  let options := callOptions args in
  let validation := validationOf mapAdapter args in
  let normalized :=
    default ∅ (parsed_data (parsedOf mapAdapter parseRequest args)) in
  let merged := mergedOf mapAdapter parseRequest args in
  let ran := hasDataOf mapAdapter parseRequest args || callAddErrors args in
  (statusFor validate mapAdapter parseRequest args =
     if ran then runValidator validate validation merged else Failure []) ∧
  (valid (superValidate' args g).1 =
     if ran then success (runValidator validate validation merged)
     else false) ∧
  (truthy (options ≫= opt_strict) = false →
     ∀ key, merged !! key =
              overlay (callDefaults mapAdapter args) normalized key) ∧
  (truthy (options ≫= opt_strict) = true → merged = normalized) ∧
  (options ≫= opt_defaults = None →
     callDefaults mapAdapter args = defaults validation).
Proof.
  intros options validation normalized merged ran.
  split; [done|]. split.
  { rewrite superValidate_valid. unfold statusFor, statusOf.
    fold ran validation merged. by destruct ran. }
  split.
  { intros Hs key. unfold merged, mergedOf.
    rewrite mergeData_lookup. fold options. by rewrite Hs. }
  split.
  { intros Hs. by apply mergeData_strict. }
  apply callDefaults_adapter.
Qed.

(** With no data (null or undefined), no [errors] option and no [strict]
    option, the validator is not run: the status is the issue-free
    failure, the form is not valid and has no errors, and its data is
    computed from the defaults alone.  When [additionalProperties] is
    truthy that is the defaults tree; otherwise it is the defaults tree
    run through the stripping loop, which is its restriction to the
    declared keys as long as no declared key is the name of a member of
    [Object.prototype]. *)
Lemma superValidate_no_data args g :
  truthySource (callData args) = false →
  callOptions args ≫= opt_errors = None →
  callOptions args ≫= opt_strict = None →
  parsed_data (parsedOf mapAdapter parseRequest args) = None →
  let form := (superValidate' args g).1 in
  let js := callSchema mapAdapter args in
  let dflt := callDefaults mapAdapter args in
  statusFor validate mapAdapter parseRequest args = Failure [] ∧
  valid form = false ∧
  errors form = ∅ ∧
  data form =
    (if truthyAP (additionalProperties js) then dflt
     else stripKeys js dflt dflt) ∧
  ((∀ k, declared js k → inherited k = false) →
     data form =
       (if truthyAP (additionalProperties js) then dflt
        else restrictToDeclared js dflt)) ∧
  (callOptions args ≫= opt_defaults = None →
     dflt = defaults (validationOf mapAdapter args)).
Proof.
  intros Hsrc Herr Hstrict Hparsed form js dflt.
  assert (Hadd : callAddErrors args = false).
  { unfold callAddErrors, addErrorsOf. by rewrite Herr, Hstrict, Hsrc. }
  assert (Hstatus : statusFor validate mapAdapter parseRequest args = Failure []).
  { unfold statusFor, statusOf, hasDataOf. rewrite Hparsed, Hadd.
    rewrite bool_decide_eq_false_2; [done|]. by intros [? ?]. }
  assert (Hmerged : mergedOf mapAdapter parseRequest args = dflt).
  { unfold mergedOf, mergeData. rewrite Hparsed, Hstrict. cbn.
    apply (left_id_L ∅ (∪)). }
  assert (Hdata : data form =
            (if truthyAP (additionalProperties js) then dflt
             else stripKeys js dflt dflt)).
  { unfold form. rewrite superValidate_data.
    unfold finalDataOf. rewrite Hstatus, Hmerged. fold js dflt.
    unfold outputDataOf. destruct (truthyAP _); cbn [negb]; [|done].
    apply backfill_self. }
  split; [done|]. split.
  { unfold form. by rewrite superValidate_valid, Hstatus. }
  split.
  { unfold form. rewrite superValidate_unfold. cbn zeta. cbn [errors fst].
    by rewrite Hstatus, Hadd. }
  split; [exact Hdata|]. split.
  - intros Hown. rewrite Hdata. destruct (truthyAP _); [done|].
    by apply stripKeys_self.
  - apply callDefaults_adapter.
Qed.

End PipelineFacts.

(** ** The path engine and the error tree *)

Lemma splitPathFrom_InKey_nonempty s cur segs :
  splitPathFrom InKey cur s = Some segs → segs ≠ [].
Proof.
  revert cur segs. induction s as [|c rest IH]; intros cur segs; cbn [splitPathFrom].
  - destruct (decide (cur = EmptyString)); [done|]. by intros [= <-].
  - repeat case_decide; try done.
    + destruct (splitPathFrom InKey EmptyString rest); [|done].
      by intros [= <-].
    + destruct (splitPathFrom InIndex EmptyString rest); [|done].
      by intros [= <-].
    + apply IH.
Qed.

Lemma splitPath_nonempty path segs :
  splitPath path = Some segs → path ≠ EmptyString ∧ segs ≠ [].
Proof.
  intros H. split.
  - by intros ->.
  - by apply splitPathFrom_InKey_nonempty in H.
Qed.

Lemma fitsPath_empty path : fitsPath ∅ path = true.
Proof. destruct path as [|key [|key' rest]]; cbn; by rewrite ?lookup_empty. Qed.

(** One step of the walk at an intermediate segment. *)
Lemma traversePath_step errs key key' rest modifier :
  traversePath errs (key :: key' :: rest) modifier =
    let parent :=
      match errs !! key with
      | None => modifier errs key None
      | Some _ => errs
      end in
    match parent !! key with
    | None => Done (parent, None)
    | Some (ErrArr _) => IllTyped
    | Some (ErrObj child) =>
        match traversePath child (key' :: rest) modifier with
        | Done (child', leaf) =>
            Done (<[key := ErrObj child']> parent,
                  (fun pd =>
                     {| pd_parent := pd_parent pd; pd_key := pd_key pd;
                        pd_value := pd_value pd;
                        pd_plug := fun p =>
                          <[key := ErrObj (pd_plug pd p)]> parent |})
                  <$> leaf)
        | MalformedPath => MalformedPath
        | IllTyped => IllTyped
        end
    end.
Proof. reflexivity. Qed.

(** On a tree that fits the path, the walk returns a leaf; the leaf holds
    what the tree has at the path, and writing the leaf's slot writes the
    tree at the path. *)
Lemma traversePath_fits path :
  ∀ errs, path ≠ [] → fitsPath errs path = true →
  ∃ root leaf,
    traversePath errs path createMissing = Done (root, Some leaf) ∧
    pd_value leaf = getPath errs path ∧
    ∀ v, getPath (pd_plug leaf (<[pd_key leaf := v]> (pd_parent leaf))) path
           = Some v ∧
         fitsPath (pd_plug leaf (<[pd_key leaf := v]> (pd_parent leaf))) path
           = true.
Proof.
  induction path as [|key rest IH]; intros errs Hne Hfits; [done|].
  destruct rest as [|key' rest].
  - eexists _, _. split; [reflexivity|]. cbn. split.
    + by destruct (errs !! key).
    + intros v. by rewrite lookup_insert_eq.
  - rewrite traversePath_step. cbn zeta.
    set (parent := match errs !! key with
                   | None => createMissing errs key None
                   | Some _ => errs
                   end).
    assert (∃ child, parent !! key = Some (ErrObj child) ∧
                     fitsPath child (key' :: rest) = true ∧
                     getPath errs (key :: key' :: rest)
                       = getPath child (key' :: rest)) as (child & Hp & Hc & Hg).
    { unfold parent. cbn [fitsPath] in Hfits. unfold getPath. cbn [getNode].
      destruct (errs !! key) as [[msgs|child]|] eqn:Hk; [done| |].
      - exists child. by rewrite Hk.
      - exists ∅. unfold createMissing. rewrite lookup_insert_eq.
        split; [done|]. split; [apply fitsPath_empty|].
        by rewrite lookup_empty. }
    rewrite Hp.
    destruct (IH child) as (root & leaf & Ht & Hv & Hw); [done|done|].
    rewrite Ht. cbn [fmap option_fmap option_map].
    eexists _, _. split; [reflexivity|]. cbn [pd_value pd_plug pd_key pd_parent].
    split; [by rewrite Hv, Hg|].
    intros v. destruct (Hw v) as [Hget Hfit]. split.
    + unfold getPath. cbn [getNode]. rewrite lookup_insert_eq. cbn.
      apply Hget.
    + cbn [fitsPath]. rewrite lookup_insert_eq. apply Hfit.
Qed.

Lemma writeLeaf_fits errs path errArr options :
  path ≠ [] → fitsPath errs path = true →
  ∃ errs',
    writeLeaf errs path errArr options = Done errs' ∧
    getPath errs' path = Some (leafValue (getPath errs path) errArr options) ∧
    fitsPath errs' path = true.
Proof.
  intros Hne Hfits.
  destruct (traversePath_fits path errs Hne Hfits) as (root & leaf & Ht & Hv & Hw).
  unfold writeLeaf. rewrite Ht. eexists. split; [reflexivity|].
  rewrite <- Hv. apply Hw.
Qed.

(** A call at a well-formed path on a tree that fits it returns; the
    returned form is invalid and has the new leaf at the path. *)
Lemma setError_atPath form path segs error options :
  splitPath path = Some segs →
  fitsPath (errors form) segs = true →
  ∃ r,
    setError form (AtPath path error options) = Done r ∧
    valid (resultForm r) = false ∧
    getPath (errors (resultForm r)) segs =
      Some (leafValue (getPath (errors form) segs) (errArrOf error)
              (default {| overwrite := None; status := None |} options)) ∧
    fitsPath (errors (resultForm r)) segs = true.
Proof.
  intros Hsplit Hfits.
  destruct (splitPath_nonempty _ _ Hsplit) as [Hp Hsegs].
  destruct (writeLeaf_fits (errors form) segs (errArrOf error)
              (default {| overwrite := None; status := None |} options)
              Hsegs Hfits) as (errs' & Hw & Hget & Hfit).
  unfold setError. cbn [unifySetError].
  rewrite decide_False by done.
  unfold setPathErrors. rewrite Hsplit, Hw.
  eexists. split; [reflexivity|]. by cbn.
Qed.

Lemma setError_done_invalid form args r :
  setError form args = Done r → valid (resultForm r) = false.
Proof.
  unfold setError. destruct (unifySetError args) as [[path error] options].
  destruct (if decide (path = EmptyString) then _ else _); [|done..].
  by intros [= <-].
Qed.

Lemma setError_fits_done form args :
  fitsCall form args = true → ∃ r, setError form args = Done r.
Proof.
  unfold fitsCall, setError.
  destruct (unifySetError args) as [[path error] options].
  destruct (decide (path = EmptyString)) as [->|Hne].
  - unfold setRootErrors. destruct (truthy (overwrite options)); [eauto|].
    cbn [orb]. destruct (errors form !! "_errors") as [[msgs|fields]|]; [eauto|done|eauto].
  - unfold setPathErrors. destruct (splitPath path) as [segs|] eqn:Hsplit; [|done].
    intros Hfits. destruct (splitPath_nonempty _ _ Hsplit) as [_ Hsegs].
    destruct (writeLeaf_fits (errors form) segs (errArrOf error) options
                Hsegs Hfits) as (errs' & -> & _). eauto.
Qed.

(** ** The mutation API *)

(** C2 (as amended).  [message] does not reject a status below 400 at run
    time: it returns.  Such a status leaves the valid flag as it was; a
    valid form comes back in the plain [{ form }] result, which carries no
    status, and a form that was already invalid comes back in a failure
    that carries the status as given. *)
Theorem message_status_below_400 form payload s :
  s < 400 →
  let r := message form payload (Some {| msg_status := Some s |}) in
  valid (resultForm r) = valid form ∧
  form_message (resultForm r) = Some payload ∧
  r = (if valid form then PlainResult (resultForm r)
       else ActionFailure s (resultForm r)).
Proof.
  intros Hs r. unfold r, message.
  cbv [mbind option_bind msg_status default from_option id].
  destruct (Z.leb_spec 400 s) as [Hge|_]; [lia|].
  destruct (truthyNum (Some s)); cbn [andb valid]; by destruct (valid form).
Qed.

(** C8.  After a call of [setError] that returns, the form's valid flag
    is false, whatever the form, its prior validity, the path (the root
    included) and the messages; and every call within the declared types
    returns. *)
Theorem setError_invalidates form args :
  (∀ r, setError form args = Done r → valid (resultForm r) = false) ∧
  (fitsCall form args = true →
     ∃ r, setError form args = Done r ∧ valid (resultForm r) = false).
Proof.
  split.
  - intros r. apply setError_done_invalid.
  - intros Hfits. destruct (setError_fits_done form args Hfits) as [r Hr].
    exists r. split; [done|]. by apply setError_done_invalid in Hr.
Qed.

(** C9.  [setError] changes nothing but the errors tree and the valid
    flag, and [message] nothing but the message and the valid flag: the
    id, the data, the posted flag and the constraints of the form are
    those it had before the call. *)
Theorem mutations_keep_identity form args r payload options :
  setError form args = Done r →
  let f1 := resultForm r in
  let f2 := resultForm (message form payload options) in
  (form_id f1 = form_id form ∧ data f1 = data form ∧
   posted f1 = posted form ∧ constraints f1 = constraints form ∧
   form_message f1 = form_message form) ∧
  (form_id f2 = form_id form ∧ data f2 = data form ∧
   posted f2 = posted form ∧ constraints f2 = constraints form ∧
   errors f2 = errors form).
Proof.
  intros Hr f1 f2. split.
  - unfold f1. revert Hr. unfold setError.
    destruct (unifySetError args) as [[path error] opts].
    destruct (if decide (path = EmptyString) then _ else _); [|done..].
    by intros [= <-].
  - unfold f2, message. by destruct (negb _).
Qed.

(** C7 (as amended).  For a well-formed path [x] and a form whose error
    tree fits it, [setError(form, x, m1)] followed by
    [setError(form, x, m2, options)] leaves, at the node [errors.x] itself
    (not at [errors.x._errors]), the messages that were there before
    followed by [m1] and [m2] when [options.overwrite] is false or
    missing, and [m2] alone when [options.overwrite] is true. *)
Theorem setError_twice form path segs m1 m2 :
  splitPath path = Some segs →
  fitsPath (errors form) segs = true →
  let prior := messagesAt (errors form) segs in
  ∃ r1,
    setError form (AtPath path (OneMessage m1) None) = Done r1 ∧
    (∀ options, truthy (options ≫= overwrite) = false →
       ∃ r2, setError (resultForm r1) (AtPath path (OneMessage m2) options)
               = Done r2 ∧
             getPath (errors (resultForm r2)) segs
               = Some (ErrArr (prior ++ [m1; m2]))) ∧
    (∀ options, truthy (options ≫= overwrite) = true →
       ∃ r2, setError (resultForm r1) (AtPath path (OneMessage m2) options)
               = Done r2 ∧
             getPath (errors (resultForm r2)) segs = Some (ErrArr [m2])).
Proof.
  intros Hsplit Hfits prior.
  destruct (setError_atPath form path segs (OneMessage m1) None Hsplit Hfits)
    as (r1 & Hr1 & _ & Hget1 & Hfit1).
  assert (Hat : getPath (errors (resultForm r1)) segs
                = Some (ErrArr (prior ++ [m1]))).
  { rewrite Hget1. unfold prior, messagesAt, leafValue. cbn.
    by destruct (getPath (errors form) segs) as [[old|fields]|]. }
  exists r1. split; [done|]. split; intros options Hov;
    destruct (setError_atPath (resultForm r1) path segs (OneMessage m2) options
                Hsplit Hfit1) as (r2 & Hr2 & _ & Hget2 & _);
    exists r2; (split; [done|]); rewrite Hget2, Hat; unfold leafValue;
    (replace (truthy (overwrite (default {| overwrite := None; status := None |} options)))
       with (truthy (options ≫= overwrite)) by by destruct options);
    rewrite Hov; cbn.
  - by rewrite <- app_assoc.
  - done.
Qed.

(** ** The instance of schema.ts

    The scenario of section 8 of the specification, and the theorems
    above at concrete calls. *)

(** A fresh form: the defaults, no errors, not valid, a generated id. *)
Example fresh_form_scenario :
  let form := (Demo.run (AdapterFirst Demo.adapter None) 0%nat).1 in
  data form
    = {[ "name" := JStr "Hello world!"; "email" := JStr EmptyString ]} ∧
  errors form = ∅ ∧ valid form = false ∧ posted form = false ∧
  form_id form = Some "abc123".
Proof. vm_compute. done. Qed.

(** The posted input with an empty name and a bad address. *)
Example posted_form_scenario :
  let form :=
    (Demo.run (DataFirst Demo.postedInput Demo.adapter None) 0%nat).1 in
  valid form = false ∧ posted form = true ∧ form_id form = None ∧
  data form !! "name" = Some (JStr EmptyString) ∧
  getPath (errors form) ["email"; "_errors"] = Some (ErrArr ["format"]).
Proof. vm_compute. done. Qed.

(** C1, the claim as written fails: with an id in the posted input and a
    different id in the options, the form gets the id of the input, not
    the caller's. *)
Lemma explicit_id_does_not_win :
  let options := Some (Demo.withId "explicit") in
  let args :=
    DataFirst (SrcFormData (Some "posted") [("email", "ada@example.org")])
              Demo.adapter options in
  let parsed := parsedOf Demo.mapAdapter Demo.parseRequest args in
  form_id (Demo.run args 0%nat).1 = Some "posted" ∧
  claimedId (options ≫= opt_id) (parsed_id parsed) (parsed_posted parsed)
            (formId Demo.nanoid 0%nat).1 = Some "explicit" ∧
  form_id (Demo.run args 0%nat).1 ≠
    claimedId (options ≫= opt_id) (parsed_id parsed) (parsed_posted parsed)
              (formId Demo.nanoid 0%nat).1.
Proof. vm_compute. repeat split; congruence. Qed.

(** C2, the claim as written fails: on a form that is already invalid, a
    status of 399 is not rejected and comes back in the failure. *)
Lemma message_status_399_is_sent :
  399 < 400 ∧
  ∃ form',
    message Demo.invalidForm (JStr "x") (Some {| msg_status := Some 399 |})
      = ActionFailure 399 form'.
Proof. split; [lia|]. eexists. reflexivity. Qed.

Lemma message_status_below_400_witness :
  201 < 400 ∧
  let r := message Demo.emptyForm (JStr "ok")
                   (Some {| msg_status := Some 201 |}) in
  valid (resultForm r) = valid Demo.emptyForm ∧
  form_message (resultForm r) = Some (JStr "ok") ∧
  r = (if valid Demo.emptyForm then PlainResult (resultForm r)
       else ActionFailure 201 (resultForm r)).
Proof.
  split; [lia|].
  apply (message_status_below_400 Demo.emptyForm (JStr "ok") 201). lia.
Defined.

(** C3.  The claim fails on the code for a declared key that bears the
    name of a member of [Object.prototype]; the claim states the intended
    behaviour and the test [key in finalData] of line 107 departs from it.
    The schema has [additionalProperties: false] and declares the optional
    property [constructor]; neither the validated data nor the defaults
    have a property of that name, so the claim has the key absent from
    the data.  The code finds [constructor] in the data by inheritance and
    stores the inherited member under that key. *)
Theorem superValidate_declared_constructor :
  let args :=
    DataFirst (SrcPartial Demo.extraInput) Cases.adapterConstructor None in
  let js := callSchema Demo.mapAdapter args in
  let finalData :=
    finalDataOf Demo.validate Demo.mapAdapter Demo.parseRequest args in
  let dflt := callDefaults Demo.mapAdapter args in
  additionalProperties js = Some (inl false) ∧
  declared js "constructor" ∧
  finalData !! "constructor" = None ∧
  dflt !! "constructor" = None ∧
  filledFrom finalData dflt "constructor" = None ∧
  data (Demo.run args 0%nat).1 !! "constructor"
    = Some (JNative "constructor").
Proof.
  intros args js finalData dflt.
  split; [reflexivity|].
  split; [eexists; vm_compute; reflexivity|].
  repeat split; vm_compute; reflexivity.
Qed.

Lemma superValidate_additionalProperties_absent_witness :
  let args := DataFirst (SrcPartial Demo.extraInput) Demo.adapter
                        (Some (Demo.withSchema Demo.schemaNoAP)) in
  additionalProperties (callSchema Demo.mapAdapter args) = None ∧
  ¬ declared (callSchema Demo.mapAdapter args) "foo" ∧
  data (Demo.run args 0%nat).1 !! "foo" = None ∧
  data (Demo.run args 0%nat).1 =
    outputDataOf Demo.schema
      (finalDataOf Demo.validate Demo.mapAdapter Demo.parseRequest args)
      (callDefaults Demo.mapAdapter args) ∧
  data (Demo.run args 0%nat).1 !! "name" = Some (JStr "Ada").
Proof.
  intros args. split; [reflexivity|].
  assert (Hfoo : ¬ declared (callSchema Demo.mapAdapter args) "foo").
  { vm_compute. intros [? ?]. discriminate. }
  split; [exact Hfoo|].
  destruct (superValidate_additionalProperties_absent
              Demo.nanoid Demo.validate Demo.mapAdapter Demo.parseRequest
              Demo.mapErrors args 0%nat) as (Hundecl & Hsame & Hdecl);
    [reflexivity|].
  split; [exact (Hundecl "foo" Hfoo)|].
  split; [apply (Hsame Demo.schema); reflexivity|].
  unfold Demo.run. rewrite (Hdecl "name").
  - vm_compute. reflexivity.
  - eexists. vm_compute. reflexivity.
  - discriminate.
Defined.

Lemma superValidate_no_properties_witness :
  let args := DataFirst (SrcPartial Demo.extraInput) Demo.adapter
                        (Some (Demo.withSchema Demo.schemaNoProps)) in
  properties (callSchema Demo.mapAdapter args) = None ∧
  additionalProperties (callSchema Demo.mapAdapter args) = Some (inl false) ∧
  data (Demo.run args 0%nat).1 = ∅.
Proof.
  intros args. split; [reflexivity|]. split; [reflexivity|].
  apply (superValidate_no_properties
           Demo.nanoid Demo.validate Demo.mapAdapter Demo.parseRequest
           Demo.mapErrors args 0%nat); reflexivity.
Defined.

Lemma superValidate_merge_step_witness :
  let args := DataFirst Demo.postedInput Demo.adapter None in
  truthy (callOptions args ≫= opt_strict) = false ∧
  mergedOf Demo.mapAdapter Demo.parseRequest args !! "name"
    = Some (JStr EmptyString) ∧
  mergedOf Demo.mapAdapter Demo.parseRequest args !! "email"
    = Some (JStr "not-an-email").
Proof.
  intros args. split; [reflexivity|].
  destruct (superValidate_merge_step
              Demo.nanoid Demo.validate Demo.mapAdapter Demo.parseRequest
              Demo.mapErrors args 0%nat) as (_ & _ & Hmerge & _).
  split; (rewrite Hmerge; [|reflexivity]); vm_compute; reflexivity.
Defined.

(** C5.  The claim fails on the code for a schema that declares a key
    bearing the name of a member of [Object.prototype]; the claim states
    the intended behaviour, and the departure is that of the test
    [key in finalData] of line 107.  No data is given; the schema has
    [additionalProperties: false] and declares the optional property
    [constructor], for which the defaults tree has no value.  The
    defaults restricted to the declared keys are the defaults; the data
    of the form has the inherited member under [constructor] besides. *)
Theorem superValidate_empty_input_constructor :
  let args := DataFirst SrcNull Cases.adapterConstructor None in
  let js := callSchema Demo.mapAdapter args in
  let dflt := callDefaults Demo.mapAdapter args in
  let form := (Demo.run args 0%nat).1 in
  truthySource (callData args) = false ∧
  callOptions args ≫= opt_errors = None ∧
  callOptions args ≫= opt_strict = None ∧
  additionalProperties js = Some (inl false) ∧
  dflt = defaults Cases.adapterConstructor ∧
  valid form = false ∧
  errors form = ∅ ∧
  restrictToDeclared js dflt !! "constructor" = None ∧
  data form !! "constructor" = Some (JNative "constructor") ∧
  data form ≠ restrictToDeclared js dflt.
Proof.
  intros args js dflt form.
  assert (Hr : restrictToDeclared js dflt !! "constructor" = None).
  { apply map_lookup_filter_None. left. vm_compute. reflexivity. }
  assert (Hd : data form !! "constructor" = Some (JNative "constructor"))
    by (vm_compute; reflexivity).
  do 7 (split; [reflexivity|]).
  split; [exact Hr|]. split; [exact Hd|].
  intros Heq. rewrite Heq, Hr in Hd. discriminate Hd.
Qed.

Lemma superValidate_no_data_example :
  let args := DataFirst SrcNull Demo.adapter (Some (Demo.withId "login")) in
  valid (Demo.run args 0%nat).1 = false ∧
  errors (Demo.run args 0%nat).1 = ∅ ∧
  data (Demo.run args 0%nat).1
    = restrictToDeclared Demo.schema (defaults Demo.adapter).
Proof.
  intros args.
  destruct (superValidate_no_data
              Demo.nanoid Demo.validate Demo.mapAdapter Demo.parseRequest
              Demo.mapErrors args 0%nat)
    as (_ & Hvalid & Herrors & _ & Hdata & _); try reflexivity.
  split; [exact Hvalid|]. split; [exact Herrors|].
  apply Hdata. intros k [v Hk]. revert Hk.
  change (declaredProps (callSchema Demo.mapAdapter args))
    with (declaredProps Demo.schema).
  unfold declaredProps, Demo.schema.
  cbv [properties default from_option id].
  intros Hk. apply lookup_insert_Some in Hk as [[<- _]|[_ Hk]]; [reflexivity|].
  apply lookup_singleton_Some in Hk as [<- _]. reflexivity.
Qed.

(** C7, the claim as written fails: after the two calls on a form without
    errors there is nothing at [errors.x._errors]; the two messages are
    the list at [errors.x]. *)
Lemma setError_x_has_no_errors_key :
  ∃ r1 r2,
    setError Demo.emptyForm (AtPath "x" (OneMessage "first") None) = Done r1 ∧
    setError (resultForm r1)
             (AtPath "x" (OneMessage "second")
                     (Some {| overwrite := Some false; status := None |}))
      = Done r2 ∧
    getPath (errors (resultForm r2)) ["x"; "_errors"] = None ∧
    getPath (errors (resultForm r2)) ["x"; "_errors"]
      ≠ Some (ErrArr ["first"; "second"]) ∧
    getPath (errors (resultForm r2)) ["x"] = Some (ErrArr ["first"; "second"]).
Proof.
  eexists _, _. split; [reflexivity|]. split; [reflexivity|].
  vm_compute. repeat split; congruence.
Qed.

Lemma setError_twice_witness :
  splitPath "tags[1].name" = Some ["tags"; "1"; "name"] ∧
  fitsPath (errors Demo.invalidForm) ["tags"; "1"; "name"] = true ∧
  ∃ r1,
    setError Demo.invalidForm (AtPath "tags[1].name" (OneMessage "first") None)
      = Done r1 ∧
    (∀ options, truthy (options ≫= overwrite) = false →
       ∃ r2, setError (resultForm r1)
               (AtPath "tags[1].name" (OneMessage "second") options) = Done r2 ∧
             getPath (errors (resultForm r2)) ["tags"; "1"; "name"]
               = Some (ErrArr
                         (messagesAt (errors Demo.invalidForm)
                                     ["tags"; "1"; "name"]
                          ++ ["first"; "second"]))) ∧
    (∀ options, truthy (options ≫= overwrite) = true →
       ∃ r2, setError (resultForm r1)
               (AtPath "tags[1].name" (OneMessage "second") options) = Done r2 ∧
             getPath (errors (resultForm r2)) ["tags"; "1"; "name"]
               = Some (ErrArr ["second"])).
Proof.
  split; [reflexivity|]. split; [reflexivity|].
  apply (setError_twice Demo.invalidForm "tags[1].name" ["tags"; "1"; "name"]
           "first" "second"); reflexivity.
Defined.

Lemma setError_invalidates_witness :
  let args := AtPath "email" (ManyMessages ["taken"; "too long"]) None in
  fitsCall Demo.emptyForm args = true ∧
  valid Demo.emptyForm = true ∧
  ∃ r, setError Demo.emptyForm args = Done r ∧ valid (resultForm r) = false.
Proof.
  intros args. split; [reflexivity|]. split; [reflexivity|].
  apply (setError_invalidates Demo.emptyForm args). reflexivity.
Defined.

Lemma mutations_keep_identity_witness :
  let args := FormLevel (OneMessage "oops") None in
  let r :=
    ActionFailure 400
      {| form_id := Some "abc123"; valid := false; posted := true;
         errors := <["_errors" := ErrArr ["oops"]]>
                     (errors Demo.invalidForm);
         data := data Demo.invalidForm; constraints := JObj [];
         form_message := None |} in
  let f2 := resultForm (message Demo.invalidForm (JStr "saved") None) in
  setError Demo.invalidForm args = Done r ∧
  (form_id (resultForm r) = form_id Demo.invalidForm ∧
   data (resultForm r) = data Demo.invalidForm ∧
   posted (resultForm r) = posted Demo.invalidForm ∧
   constraints (resultForm r) = constraints Demo.invalidForm ∧
   form_message (resultForm r) = form_message Demo.invalidForm) ∧
  (form_id f2 = form_id Demo.invalidForm ∧ data f2 = data Demo.invalidForm ∧
   posted f2 = posted Demo.invalidForm ∧
   constraints f2 = constraints Demo.invalidForm ∧
   errors f2 = errors Demo.invalidForm).
Proof.
  intros args r f2. split; [reflexivity|].
  apply (mutations_keep_identity Demo.invalidForm args r (JStr "saved") None).
  reflexivity.
Defined.

(** * Further properties of the code *)

(** ** [superValidate]: the back-filling branch and the validation gate *)

Lemma backfillStep_lookup dflt out key k :
  backfillStep dflt out key !! k =
    match out !! k with
    | Some v => Some v
    | None =>
        if decide (k = key) then
          if inherited k then None else definedDefault dflt k
        else None
    end.
Proof.
  unfold backfillStep.
  destruct (decide (k = key)) as [->|Hne].
  - destruct (out !! key) as [v|] eqn:Hout.
    + rewrite hasKey_own by eauto. cbn [negb andb]. by rewrite Hout.
    + destruct (inherited key) eqn:Hi.
      * rewrite hasKey_inherited by done. cbn [negb andb]. by rewrite Hout.
      * rewrite hasKey_not_inherited, getProp_not_inherited by done.
        rewrite Hout.
        rewrite bool_decide_eq_false_2 by (by intros [? ?]).
        cbn [negb andb]. unfold definedDefault.
        destruct (dflt !! key) as [v|]; simpl; [|by rewrite Hout].
        destruct (isDefined v); [|by rewrite Hout].
        by rewrite setProp_lookup_eq by (by apply not_inherited_proto).
  - destruct (negb _ && _); [rewrite setProp_lookup_ne by done|];
      by destruct (out !! k).
Qed.

Lemma foldl_backfillStep_lookup dflt keys out k :
  foldl (backfillStep dflt) out keys !! k =
    match out !! k with
    | Some v => Some v
    | None =>
        if decide (k ∈ keys) then
          if inherited k then None else definedDefault dflt k
        else None
    end.
Proof.
  revert out. induction keys as [|key keys IH]; intros out.
  - cbn [foldl]. destruct (out !! k); [done|].
    destruct (decide (k ∈ [])) as [Hin|]; [|done].
    by apply not_elem_of_nil in Hin.
  - cbn [foldl]. rewrite IH, backfillStep_lookup.
    destruct (out !! k) as [v|]; [done|].
    destruct (decide (k = key)) as [->|Hne].
    + rewrite (decide_True (P := key ∈ key :: keys)) by apply list_elem_of_here.
      destruct (inherited key); [by destruct (decide (key ∈ keys))|].
      destruct (definedDefault dflt key); [done|].
      by destruct (decide (key ∈ keys)).
    + destruct (decide (k ∈ keys)) as [Hin|Hnin].
      * rewrite decide_True; [done|]. by apply list_elem_of_further.
      * rewrite decide_False; [done|].
        rewrite not_elem_of_cons. done.
Qed.

Lemma backfill_lookup finalData dflt k :
  backfill finalData dflt !! k =
    match finalData !! k with
    | Some v => Some v
    | None => if inherited k then None else definedDefault dflt k
    end.
Proof.
  unfold backfill. rewrite foldl_backfillStep_lookup.
  destruct (finalData !! k); [done|].
  destruct (decide (k ∈ (map_to_list dflt).*1)) as [Hin|Hnin]; [done|].
  destruct (inherited k); [done|].
  unfold definedDefault. destruct (dflt !! k) as [v|] eqn:Hk; [|done].
  exfalso. apply Hnin. apply list_elem_of_fmap. exists (k, v).
  split; [done|]. by apply elem_of_map_to_list.
Qed.

(** What the loop assigns under a key when the record has every key of
    the defaults: the own value of the record, else the inherited
    member. *)
Lemma assignedValue_covering finalData dflt k :
  (∀ k, finalData !! k = None → dflt !! k = None) →
  assignedValue finalData dflt k =
    match finalData !! k with
    | Some v => Some v
    | None => if inherited k then Some (JNative k) else None
    end.
Proof.
  intros Hcov. destruct (inherited k) eqn:Hi.
  - rewrite assignedValue_inherited by done. by destruct (finalData !! k).
  - rewrite assignedValue_not_inherited by done. unfold filledFrom.
    destruct (finalData !! k) as [v|] eqn:Hk; [done|].
    by rewrite (Hcov k Hk).
Qed.

(** A record that has every key of the defaults takes nothing from them
    in the key filter. *)
Lemma stripKeys_covering js finalData dflt k :
  (∀ k, finalData !! k = None → dflt !! k = None) →
  stripKeys js finalData dflt !! k =
    if decide (declared js k ∧ k ≠ "__proto__") then
      match finalData !! k with
      | Some v => Some v
      | None => if inherited k then Some (JNative k) else None
      end
    else None.
Proof.
  intros Hcov. rewrite stripKeys_lookup.
  case_decide; [|done]. by apply assignedValue_covering.
Qed.

Lemma backfill_covering finalData dflt :
  (∀ k, finalData !! k = None → dflt !! k = None) →
  backfill finalData dflt = finalData.
Proof.
  intros Hcov. apply backfill_covered. intros k Hk.
  apply list_elem_of_fmap in Hk as [[k' v] [-> Hin]].
  apply elem_of_map_to_list in Hin. cbn.
  destruct (finalData !! k') as [w|] eqn:Hw; [eauto|].
  rewrite (Hcov _ Hw) in Hin. done.
Qed.

Lemma mergeData_covers options dflt pd k :
  truthy (options ≫= opt_strict) = false →
  mergeData options dflt pd !! k = None → dflt !! k = None.
Proof.
  intros Hs. rewrite mergeData_lookup, Hs. unfold overlay.
  by destruct (default ∅ pd !! k).
Qed.

Section PipelineMore.

Context {Rng : Type} (nanoid : Rng → string * Rng).
Context {Validator : Type} (validate : Validator → Rec → ValidationResult).
Context {ValidationAdapter : Type}
        (mapAdapter : ValidationAdapter → MappedValidationAdapter Validator).
Context (parseRequest :
           Source → JSONSchema → option SuperValidateOptions → ParsedData).
Context (mapErrors : list Issue → JsVal → Errors).

Abbreviation superValidate'' :=
  (superValidate nanoid validate mapAdapter parseRequest mapErrors).

(** X1.  When the schema's [additionalProperties] is truthy ([true] or a
    sub-schema), every own key of the validated-or-merged data is kept
    with its value, undeclared keys included.  A key that is missing
    there is filled from the defaults when the default is defined and the
    key is not the name of a member of [Object.prototype]; under such a
    name the data counts as having the key (line 113), so nothing is
    filled in. *)
Theorem superValidate_additionalProperties_truthy args g key :
  truthyAP (additionalProperties (callSchema mapAdapter args)) = true →
  data (superValidate'' args g).1 !! key =
    match finalDataOf validate mapAdapter parseRequest args !! key with
    | Some v => Some v
    | None =>
        if inherited key then None
        else definedDefault (callDefaults mapAdapter args) key
    end.
Proof.
  intros Hap. rewrite superValidate_data. unfold outputDataOf.
  rewrite Hap. cbn [negb]. apply backfill_lookup.
Qed.

(** X2.  When validation runs and the validator accepts the merged
    record, the form is valid, has no errors, and its data is built from
    the record the validator returned, not from the merged input. *)
Theorem superValidate_accepted args g sd :
  hasDataOf mapAdapter parseRequest args || callAddErrors args = true →
  runValidator validate (validationOf mapAdapter args)
               (mergedOf mapAdapter parseRequest args) = Success sd →
  valid (superValidate'' args g).1 = true ∧
  errors (superValidate'' args g).1 = ∅ ∧
  data (superValidate'' args g).1 =
    outputDataOf (callSchema mapAdapter args) sd (callDefaults mapAdapter args).
Proof.
  intros Hran Hok.
  assert (Hst : statusFor validate mapAdapter parseRequest args = Success sd).
  { unfold statusFor, statusOf. by rewrite Hran. }
  rewrite superValidate_unfold. cbn zeta. cbn [valid errors data fst].
  unfold finalDataOf. rewrite Hst. done.
Qed.

(** X3.  With [options.errors] set to [false] the returned form never
    has errors, also for posted data the validator rejects; the valid
    flag still tells whether the data passed (it is false when there was
    no data to validate). *)
Theorem superValidate_errors_off args g :
  callOptions args ≫= opt_errors = Some false →
  errors (superValidate'' args g).1 = ∅ ∧
  valid (superValidate'' args g).1 =
    (if hasDataOf mapAdapter parseRequest args
     then success (runValidator validate (validationOf mapAdapter args)
                                (mergedOf mapAdapter parseRequest args))
     else false).
Proof.
  intros Herr.
  assert (Hadd : callAddErrors args = false).
  { unfold callAddErrors, addErrorsOf. by rewrite Herr. }
  rewrite superValidate_unfold. cbn zeta. cbn [valid errors fst].
  rewrite Hadd. cbn [negb]. rewrite orb_true_r. split; [done|].
  unfold statusFor, statusOf. rewrite Hadd, orb_false_r.
  by destruct (hasDataOf _ _ _).
Qed.

(** X4.  In strict mode (and without an [errors] option) validation
    always runs, also when there is no data at all, and the validator
    sees the normalized input alone, without any default; when it
    rejects, the errors are those of its issues. *)
Theorem superValidate_strict args g :
  callOptions args ≫= opt_strict = Some true →
  callOptions args ≫= opt_errors = None →
  let status :=
    runValidator validate (validationOf mapAdapter args)
      (default ∅ (parsed_data (parsedOf mapAdapter parseRequest args))) in
  valid (superValidate'' args g).1 = success status ∧
  errors (superValidate'' args g).1 =
    (if success status then ∅
     else mapErrors (issues status) (objects (validationOf mapAdapter args))).
Proof.
  intros Hstrict Herr status.
  assert (Hadd : callAddErrors args = true).
  { unfold callAddErrors, addErrorsOf. by rewrite Herr, Hstrict. }
  assert (Hst : statusFor validate mapAdapter parseRequest args = status).
  { unfold statusFor, statusOf. rewrite Hadd, orb_true_r.
    unfold mergedOf. rewrite mergeData_strict; [done|]. by rewrite Hstrict. }
  rewrite superValidate_unfold. cbn zeta. cbn [valid errors fst].
  rewrite Hst, Hadd. cbn [negb]. by rewrite orb_false_r.
Qed.

(** X5.  Outside strict mode, a form that is not valid (rejected, or not
    validated at all) carries the merged record, the caller's input over
    the defaults: all of it when [additionalProperties] is truthy.
    Otherwise the data has the declared keys only; a declared key holds
    the value the merged record has under it, or, when the merged record
    has none and the key is the name of a member of [Object.prototype],
    that inherited member; [__proto__] is never a key of the data.  What
    the user typed is never replaced by a default. *)
Theorem superValidate_invalid_data args g :
  truthy (callOptions args ≫= opt_strict) = false →
  valid (superValidate'' args g).1 = false →
  (truthyAP (additionalProperties (callSchema mapAdapter args)) = true →
     data (superValidate'' args g).1 = mergedOf mapAdapter parseRequest args) ∧
  (truthyAP (additionalProperties (callSchema mapAdapter args)) = false →
     ∀ key,
       data (superValidate'' args g).1 !! key =
         if decide (declared (callSchema mapAdapter args) key
                    ∧ key ≠ "__proto__") then
           match mergedOf mapAdapter parseRequest args !! key with
           | Some v => Some v
           | None => if inherited key then Some (JNative key) else None
           end
         else None).
Proof.
  intros Hs Hinvalid. rewrite superValidate_valid in Hinvalid.
  rewrite superValidate_data. unfold finalDataOf.
  destruct (statusFor validate mapAdapter parseRequest args); [done|].
  unfold outputDataOf.
  assert (Hcov : ∀ k, mergedOf mapAdapter parseRequest args !! k = None →
                      callDefaults mapAdapter args !! k = None).
  { intros k. unfold mergedOf. by apply mergeData_covers. }
  split; intros Hap; rewrite Hap; cbn [negb].
  - by apply backfill_covering.
  - intros key. by apply stripKeys_covering.
Qed.

(** X6.  With a validator that hands back the record it was given when
    it accepts it (as the hyperjump adapter's does), the data of the form
    is computed from the merged record whether the form is valid or
    not. *)
Theorem superValidate_echoing_validator args g :
  (∀ d sd, runValidator validate (validationOf mapAdapter args) d = Success sd
           → sd = d) →
  data (superValidate'' args g).1 =
    outputDataOf (callSchema mapAdapter args)
                 (mergedOf mapAdapter parseRequest args)
                 (callDefaults mapAdapter args).
Proof.
  intros Hecho. rewrite superValidate_data. f_equal.
  unfold finalDataOf, statusFor, statusOf.
  destruct (_ || _); [|done].
  destruct (runValidator _ _ _) as [sd|] eqn:Hr; [|done].
  by apply Hecho in Hr.
Qed.

End PipelineMore.

(** ** [setError]: the tree it leaves *)

Lemma setNode_step errs key key' rest v :
  setNode errs (key :: key' :: rest) v =
    match errs !! key with
    | Some (ErrObj child) =>
        <[key := ErrObj (setNode child (key' :: rest) v)]> errs
    | _ => <[key := ErrObj (setNode ∅ (key' :: rest) v)]> errs
    end.
Proof. reflexivity. Qed.

Lemma fitsPath_step errs key key' rest :
  fitsPath errs (key :: key' :: rest) =
    match errs !! key with
    | None => true
    | Some (ErrArr _) => false
    | Some (ErrObj child) => fitsPath child (key' :: rest)
    end.
Proof. reflexivity. Qed.

Lemma getPath_cons errs key rest :
  getPath errs (key :: rest) = errs !! key ≫= fun t => getNode t rest.
Proof. reflexivity. Qed.

Lemma getNode_app t p q :
  getNode t (p ++ q) = getNode t p ≫= fun u => getNode u q.
Proof.
  revert t. induction p as [|key p IH]; intros t; [done|].
  cbn [app getNode]. destruct t as [msgs|fields]; [done|].
  destruct (fields !! key) as [child|]; [apply IH|done].
Qed.

(** The walk and the write, together, compute [setNode]. *)
Lemma traversePath_plug path :
  ∀ errs, path ≠ [] → fitsPath errs path = true →
  ∃ root leaf,
    traversePath errs path createMissing = Done (root, Some leaf) ∧
    pd_value leaf = getPath errs path ∧
    ∀ v, pd_plug leaf (<[pd_key leaf := v]> (pd_parent leaf))
           = setNode errs path v.
Proof.
  induction path as [|key rest IH]; intros errs Hne Hfits; [done|].
  destruct rest as [|key' rest].
  - eexists _, _. split; [reflexivity|]. cbn. split; [|done].
    by destruct (errs !! key).
  - rewrite traversePath_step. cbn zeta. rewrite fitsPath_step in Hfits.
    rewrite getPath_cons.
    destruct (errs !! key) as [[msgs|child]|] eqn:Hk; [done| |].
    + rewrite Hk. destruct (IH child) as (root & leaf & Ht & Hv & Hw);
        [done|done|].
      rewrite Ht. eexists _, _. split; [reflexivity|].
      cbn [fmap option_fmap option_map pd_value pd_plug pd_key pd_parent].
      split; [by rewrite Hv|].
      intros v. rewrite setNode_step, Hk. by rewrite Hw.
    + change (createMissing errs key None) with (<[key := ErrObj ∅]> errs).
      rewrite lookup_insert_eq.
      destruct (IH ∅) as (root & leaf & Ht & Hv & Hw);
        [done|apply fitsPath_empty|].
      rewrite Ht. eexists _, _. split; [reflexivity|].
      cbn [fmap option_fmap option_map pd_value pd_plug pd_key pd_parent].
      split.
      { rewrite Hv. unfold getPath. cbn [getNode mbind option_bind].
        by rewrite lookup_empty. }
      intros v. rewrite setNode_step, Hk. rewrite Hw.
      by rewrite insert_insert_eq.
Qed.

Lemma writeLeaf_setNode errs path errArr options :
  path ≠ [] → fitsPath errs path = true →
  writeLeaf errs path errArr options =
    Done (setNode errs path (leafValue (getPath errs path) errArr options)).
Proof.
  intros Hne Hfits.
  destruct (traversePath_plug path errs Hne Hfits) as (root & leaf & Ht & Hv & Hw).
  unfold writeLeaf. by rewrite Ht, Hw, Hv.
Qed.

Lemma fitsPath_setNode path :
  ∀ errs v, fitsPath errs path = true → fitsPath (setNode errs path v) path = true.
Proof.
  induction path as [|key rest IH]; intros errs v Hfits; [done|].
  destruct rest as [|key' rest]; [done|].
  rewrite fitsPath_step in Hfits. rewrite setNode_step.
  destruct (errs !! key) as [[msgs|child]|] eqn:Hk; [done| |];
    rewrite fitsPath_step, lookup_insert_eq; apply IH;
    [done|apply fitsPath_empty].
Qed.

Lemma getPath_setNode path :
  ∀ errs v, path ≠ [] → fitsPath errs path = true →
  getPath (setNode errs path v) path = Some v.
Proof.
  induction path as [|key rest IH]; intros errs v Hne Hfits; [done|].
  destruct rest as [|key' rest].
  - rewrite getPath_cons. cbn [setNode]. by rewrite lookup_insert_eq.
  - rewrite fitsPath_step in Hfits. rewrite setNode_step.
    destruct (errs !! key) as [[msgs|child]|] eqn:Hk; [done| |];
      rewrite getPath_cons, lookup_insert_eq; cbn [mbind option_bind getNode];
      apply (IH _ v); try done; apply fitsPath_empty.
Qed.

Lemma setNode_setNode path :
  ∀ errs v w, fitsPath errs path = true →
  setNode (setNode errs path v) path w = setNode errs path w.
Proof.
  induction path as [|key rest IH]; intros errs v w Hfits; [done|].
  destruct rest as [|key' rest].
  - cbn [setNode]. apply insert_insert_eq.
  - rewrite fitsPath_step in Hfits. rewrite (setNode_step errs).
    destruct (errs !! key) as [[msgs|child]|] eqn:Hk; [done| |];
      rewrite setNode_step, lookup_insert_eq, insert_insert_eq, IH;
      try done; try apply fitsPath_empty.
    + by rewrite setNode_step, Hk.
    + by rewrite setNode_step, Hk.
Qed.

Lemma getPath_setNode_diverge p :
  ∀ errs q v, fitsPath errs p = true → diverge p q = true →
  getPath (setNode errs p v) q = getPath errs q.
Proof.
  induction p as [|k1 p IH]; intros errs q v Hfits Hdiv; [done|].
  destruct q as [|k2 q]; [done|]. cbn [diverge] in Hdiv.
  destruct (decide (k1 = k2)) as [<-|Hne].
  - destruct p as [|k' p]; [done|].
    rewrite fitsPath_step in Hfits. rewrite setNode_step, !getPath_cons.
    destruct (errs !! k1) as [[msgs|child]|] eqn:Hk; [done| |];
      rewrite lookup_insert_eq; cbn [mbind option_bind].
    + destruct q as [|k2 q]; [done|]. exact (IH child _ v Hfits Hdiv).
    + destruct q as [|k2 q]; [done|].
      change (getPath (setNode ∅ (k' :: p) v) (k2 :: q) = None).
      rewrite (IH ∅); [|apply fitsPath_empty|done].
      rewrite getPath_cons. by rewrite lookup_empty.
  - rewrite !getPath_cons.
    assert (Hother : setNode errs (k1 :: p) v !! k2 = errs !! k2).
    { destruct p as [|k' p].
      - cbn [setNode]. by rewrite lookup_insert_ne.
      - rewrite setNode_step.
        destruct (errs !! k1) as [[msgs|child]|]; by rewrite lookup_insert_ne. }
    by rewrite Hother.
Qed.

(** What a returning call at a path gives, in one equation. *)
Lemma setError_atPath_setNode form path segs error options :
  splitPath path = Some segs →
  fitsPath (errors form) segs = true →
  let o := default {| overwrite := None; status := None |} options in
  setError form (AtPath path error options) =
    Done (ActionFailure (default 400 (status o))
            {| form_id := form_id form; valid := false;
               posted := posted form;
               errors :=
                 setNode (errors form) segs
                   (leafValue (getPath (errors form) segs) (errArrOf error) o);
               data := data form; constraints := constraints form;
               form_message := form_message form |}).
Proof.
  intros Hsplit Hfits o.
  destruct (splitPath_nonempty _ _ Hsplit) as [Hp Hsegs].
  unfold setError. cbn [unifySetError]. fold o.
  rewrite decide_False by done.
  unfold setPathErrors. rewrite Hsplit.
  by rewrite (writeLeaf_setNode _ _ _ _ Hsegs Hfits).
Qed.

Lemma overwrite_default options :
  overwrite (default {| overwrite := None; status := None |} options)
    = options ≫= overwrite.
Proof. by destruct options. Qed.

Lemma leafValue_append value a b o :
  truthy (overwrite o) = false →
  leafValue (Some (leafValue value a o)) b o = leafValue value (a ++ b) o.
Proof.
  intros Ho. unfold leafValue. rewrite Ho. cbn [negb].
  destruct value as [[old|fields]|]; by rewrite ?app_assoc.
Qed.

Lemma leafValue_overwrite value b o :
  truthy (overwrite o) = true → leafValue value b o = ErrArr b.
Proof.
  intros Ho. unfold leafValue. rewrite Ho.
  by destruct value as [[old|fields]|].
Qed.

Lemma setError_root form error options :
  setError form (AtPath EmptyString error options) =
    match setRootErrors (errors form) (errArrOf error)
            (default {| overwrite := None; status := None |} options) with
    | Done errs =>
        Done (ActionFailure
                (default 400
                   (status (default {| overwrite := None; status := None |}
                                    options)))
                {| form_id := form_id form; valid := false;
                   posted := posted form; errors := errs; data := data form;
                   constraints := constraints form;
                   form_message := form_message form |})
    | MalformedPath => MalformedPath
    | IllTyped => IllTyped
    end.
Proof. unfold setError. cbn [unifySetError]. by rewrite decide_True. Qed.

(** X7.  A call of [setError] that returns always returns a failure,
    never the plain result, and the failure carries the status of the
    options as it is, 400 when there is none; the status is not checked
    against the range 400-599. *)
Theorem setError_returns_failure form args r :
  setError form args = Done r →
  r = ActionFailure (default 400 (status (unifySetError args).2))
                    (resultForm r).
Proof.
  unfold setError. destruct (unifySetError args) as [[path error] options].
  destruct (if decide (path = EmptyString) then _ else _); [|done..].
  by intros [= <-].
Qed.

(** X8.  A form-level call (no path, or the empty path) stores the
    messages in the root's [_errors]: after the messages already there,
    or alone when [overwrite] is set; no other entry of the error tree
    changes. *)
Theorem setError_form_level form error options r :
  setError form (FormLevel error options) = Done r →
  setError form (AtPath EmptyString error options) = Done r ∧
  errors (resultForm r) !! "_errors" =
    Some (ErrArr ((if truthy (options ≫= overwrite) then []
                   else messagesAt (errors form) ["_errors"])
                  ++ errArrOf error)) ∧
  ∀ key, key ≠ "_errors" → errors (resultForm r) !! key = errors form !! key.
Proof.
  intros Hr. split; [exact Hr|]. revert Hr.
  unfold setError. cbn [unifySetError]. rewrite decide_True by done.
  unfold setRootErrors, messagesAt. rewrite overwrite_default, getPath_cons.
  destruct (truthy (options ≫= overwrite)).
  - intros [= <-]. cbn [resultForm errors]. split.
    + by rewrite lookup_insert_eq.
    + intros key Hkey. by rewrite lookup_insert_ne.
  - destruct (errors form !! "_errors") as [[old|fields]|]; [| done |];
      intros [= <-]; cbn [resultForm errors mbind option_bind getNode];
      (split; [by rewrite lookup_insert_eq
              |intros key Hkey; by rewrite lookup_insert_ne]).
Qed.

(** X9.  A call at a path leaves every node on a path that parts from it
    as it was: errors set for one field never disturb those of another
    field or of another element of the same array. *)
Theorem setError_other_paths form path segs error options q :
  splitPath path = Some segs →
  fitsPath (errors form) segs = true →
  diverge segs q = true →
  ∃ r, setError form (AtPath path error options) = Done r ∧
       getPath (errors (resultForm r)) q = getPath (errors form) q.
Proof.
  intros Hsplit Hfits Hdiv. eexists. split.
  - by apply setError_atPath_setNode.
  - cbn [resultForm errors]. by apply getPath_setNode_diverge.
Qed.

(** X10.  Two calls that append at the same place amount to one call
    with the two message lists joined: the second call returns what a
    single call with all the messages would have returned on the
    original form. *)
Theorem setError_append_compose form path e1 e2 o1 o2 :
  truthy (o1 ≫= overwrite) = false →
  truthy (o2 ≫= overwrite) = false →
  fitsCall form (AtPath path e1 o1) = true →
  ∃ r1, setError form (AtPath path e1 o1) = Done r1 ∧
        setError (resultForm r1) (AtPath path e2 o2) =
          setError form
            (AtPath path (ManyMessages (errArrOf e1 ++ errArrOf e2)) o2).
Proof.
  intros Ho1 Ho2. unfold fitsCall. cbn [unifySetError].
  destruct (decide (path = EmptyString)) as [->|Hne].
  - rewrite overwrite_default, Ho1. cbn [orb]. intros Hroot.
    unfold setError. cbn [unifySetError]. rewrite !decide_True by done.
    unfold setRootErrors. rewrite !overwrite_default, Ho1, Ho2.
    destruct (errors form !! "_errors") as [[old|fields]|] eqn:Hk; [|done|];
      (eexists; split; [reflexivity|]); cbn [resultForm errors];
      rewrite lookup_insert_eq, insert_insert_eq; cbn [errArrOf];
      by rewrite ?app_assoc.
  - destruct (splitPath path) as [segs|] eqn:Hsplit; [|done]. intros Hfits.
    eexists. split; [by apply setError_atPath_setNode|].
    destruct (splitPath_nonempty _ _ Hsplit) as [_ Hsegs].
    cbn [resultForm errors].
    rewrite !(setError_atPath_setNode _ path segs) by
      (try done; cbn [errors]; by apply fitsPath_setNode).
    cbn zeta. cbn [errors form_id posted data constraints form_message].
    rewrite setNode_setNode by done.
    rewrite getPath_setNode by done.
    set (oa := default {| overwrite := None; status := None |} o1).
    set (ob := default {| overwrite := None; status := None |} o2).
    assert (Hv : leafValue (Some (leafValue (getPath (errors form) segs)
                                    (errArrOf e1) oa)) (errArrOf e2) ob
                 = leafValue (getPath (errors form) segs)
                     (errArrOf (ManyMessages (errArrOf e1 ++ errArrOf e2))) ob).
    { cbn [errArrOf]. unfold leafValue. unfold oa, ob.
      rewrite !overwrite_default, Ho1, Ho2. cbn [negb].
      destruct (getPath (errors form) segs) as [[old|fields]|];
        by rewrite ?app_assoc. }
    by rewrite Hv.
Qed.

(** X11.  An overwriting call makes the calls before it at the same
    place void: it returns what it would have returned on the form
    before them. *)
Theorem setError_overwrite_wins form path e1 e2 o1 o2 :
  truthy (o2 ≫= overwrite) = true →
  fitsCall form (AtPath path e1 o1) = true →
  ∃ r1, setError form (AtPath path e1 o1) = Done r1 ∧
        setError (resultForm r1) (AtPath path e2 o2) =
          setError form (AtPath path e2 o2).
Proof.
  intros Ho2. unfold fitsCall. cbn [unifySetError].
  destruct (decide (path = EmptyString)) as [->|Hne].
  - intros Hroot. rewrite !setError_root.
    assert (Hins : ∃ x, setRootErrors (errors form) (errArrOf e1)
                          (default {| overwrite := None; status := None |} o1)
                        = Done (<["_errors" := x]> (errors form))).
    { unfold setRootErrors.
      destruct (truthy (overwrite
                  (default {| overwrite := None; status := None |} o1)));
        [eauto|].
      cbn [orb] in Hroot.
      destruct (errors form !! "_errors") as [[old|fields]|]; [|done|]; eauto. }
    destruct Hins as [x ->]. eexists. split; [reflexivity|].
    rewrite setError_root. cbn [resultForm errors form_id posted data
                                constraints form_message].
    unfold setRootErrors. rewrite overwrite_default, Ho2.
    by rewrite insert_insert_eq.
  - destruct (splitPath path) as [segs|] eqn:Hsplit; [|done]. intros Hfits.
    eexists. split; [by apply setError_atPath_setNode|].
    destruct (splitPath_nonempty _ _ Hsplit) as [_ Hsegs].
    cbn [resultForm errors].
    rewrite !(setError_atPath_setNode _ path segs) by
      (try done; cbn [errors]; by apply fitsPath_setNode).
    cbn zeta. cbn [errors form_id posted data constraints form_message].
    rewrite setNode_setNode by done.
    rewrite !(leafValue_overwrite _ (errArrOf e2)); [done|..];
      by rewrite overwrite_default.
Qed.

(** X12.  When the node at the path is an object (a field with errors
    nested below it), the call puts the message list in its place and the
    nested errors are gone: nothing can be read below the path any
    more. *)
Theorem setError_replaces_subtree form path segs error options sub :
  splitPath path = Some segs →
  fitsPath (errors form) segs = true →
  getPath (errors form) segs = Some (ErrObj sub) →
  ∃ r, setError form (AtPath path error options) = Done r ∧
       getPath (errors (resultForm r)) segs = Some (ErrArr (errArrOf error)) ∧
       ∀ key q, getPath (errors (resultForm r)) (segs ++ key :: q) = None.
Proof.
  intros Hsplit Hfits Hsub.
  destruct (splitPath_nonempty _ _ Hsplit) as [_ Hsegs].
  eexists. split; [by apply setError_atPath_setNode|].
  cbn [resultForm errors].
  assert (Hget : getPath
            (setNode (errors form) segs
               (leafValue (getPath (errors form) segs) (errArrOf error)
                  (default {| overwrite := None; status := None |} options)))
            segs = Some (ErrArr (errArrOf error))).
  { rewrite getPath_setNode by done. by rewrite Hsub. }
  split; [done|]. intros key q. unfold getPath in *.
  by rewrite getNode_app, Hget.
Qed.

(** ** [message] *)

(** X13.  With a status of 400 or more, [message] makes the form invalid
    whatever it was, attaches the payload and returns a failure with that
    status. *)
Theorem message_status_at_least_400 form payload s :
  400 ≤ s →
  let r := message form payload (Some {| msg_status := Some s |}) in
  r = ActionFailure s (resultForm r) ∧
  valid (resultForm r) = false ∧
  form_message (resultForm r) = Some payload.
Proof.
  intros Hs r. unfold r, message.
  cbv [mbind option_bind msg_status default from_option id truthyNum].
  destruct (Z.leb_spec 400 s) as [_|Hlt]; [|lia].
  destruct (Z.eqb_spec s 0) as [->|_]; [lia|]. done.
Qed.

(** X14.  [message] returns a failure exactly when the form is invalid
    after the call; the status of the failure is the one given, 400 when
    none is given, and the plain result carries no status. *)
Theorem message_result_kind form payload options :
  let r := message form payload options in
  resultStatus r =
    (if valid (resultForm r) then None
     else Some (default 400 (options ≫= msg_status))) ∧
  form_message (resultForm r) = Some payload.
Proof.
  intros r. unfold r, message.
  destruct (truthyNum _ && _); cbn [valid negb]; [done|].
  by destruct (valid form).
Qed.

(** X15.  [message] never makes an invalid form valid: a form that is
    valid after the call was valid before it, and it comes back in the
    plain result. *)
Theorem message_never_validates form payload options :
  valid (resultForm (message form payload options)) = true →
  valid form = true ∧
  message form payload options
    = PlainResult (resultForm (message form payload options)).
Proof.
  unfold message.
  destruct (truthyNum _ && _); cbn [valid negb resultForm]; [done|].
  destruct (valid form); cbn [negb resultForm valid]; done.
Qed.

(** X16.  After [setError], [message] always returns a failure, whatever
    its status option: the form stays invalid, keeps the errors that were
    set, and gets the payload. *)
Theorem message_after_setError form args r payload options :
  setError form args = Done r →
  ∃ f, message (resultForm r) payload options
         = ActionFailure (default 400 (options ≫= msg_status)) f ∧
       valid f = false ∧
       errors f = errors (resultForm r) ∧
       form_message f = Some payload.
Proof.
  intros Hr. apply setError_done_invalid in Hr. unfold message. rewrite Hr.
  destruct (truthyNum _ && _); cbn [valid negb]; eexists; done.
Qed.

(** ** The hyperjump adapter *)

Lemma string_app_cons c (s t : string) : String c s ++ t = String c (s ++ t).
Proof. reflexivity. Qed.

Lemma string_app_nil_l (t : string) : EmptyString ++ t = t.
Proof. reflexivity. Qed.

Lemma string_app_nil_r (s : string) : s ++ EmptyString = s.
Proof.
  induction s as [|c s IH]; [done|]. by rewrite string_app_cons, IH.
Qed.

Lemma list_ascii_of_string_app (s1 s2 : string) :
  list_ascii_of_string (s1 ++ s2)
    = (list_ascii_of_string s1 ++ list_ascii_of_string s2)%list.
Proof.
  induction s1 as [|c s1 IH]; [done|].
  rewrite string_app_cons. cbn. by rewrite IH.
Qed.

Lemma split_nonempty s sep : split s sep ≠ [].
Proof.
  destruct s as [|c s]; cbn; [done|].
  destruct (decide (c = sep)); [done|]. by destruct (split s sep).
Qed.

Lemma split_app_free p s sep :
  ¬ occursIn sep p →
  split (p ++ s) sep =
    match split s sep with
    | piece :: pieces => (p ++ piece) :: pieces
    | [] => [p]
    end.
Proof.
  unfold occursIn. induction p as [|c p IH]; intros Hfree.
  - rewrite string_app_nil_l.
    destruct (split s sep) as [|piece pieces] eqn:Hs; [|done].
    by apply split_nonempty in Hs.
  - cbn in Hfree. rewrite not_elem_of_cons in Hfree.
    destruct Hfree as [Hc Hp]. rewrite string_app_cons. cbn [split].
    rewrite decide_False by done.
    rewrite (IH Hp). destruct (split s sep) as [|piece pieces] eqn:Hs; [|done].
    by apply split_nonempty in Hs.
Qed.

Lemma split_location segs :
  Forall (fun seg => ¬ occursIn "/" seg) segs →
  split (foldr (fun seg acc => String "/" (seg ++ acc)) EmptyString segs) "/"
    = EmptyString :: segs.
Proof.
  induction 1 as [|seg segs Hseg _ IH]; [done|].
  cbn [foldr split]. rewrite decide_True by done.
  rewrite (split_app_free _ _ _ Hseg), IH. by rewrite string_app_nil_r.
Qed.

(** X17.  The path of an issue is the list of keys of the location the
    validator reports: what comes before the first slash is dropped and
    the keys come out in order.  The location of the whole record (no
    key at all) gives the empty path. *)
Theorem pathOfLocation_locationOf prefix segs :
  ¬ occursIn "/" prefix →
  Forall (fun seg => ¬ occursIn "/" seg) segs →
  pathOfLocation (locationOf prefix segs) = segs.
Proof.
  intros Hprefix Hsegs. unfold pathOfLocation, locationOf.
  rewrite (split_app_free _ _ _ Hprefix), (split_location _ Hsegs). done.
Qed.

(** X18.  No segment of an issue's path contains a slash, and there are
    as many segments as slashes in the location: the location is split at
    every slash, escapes are not undone. *)
Theorem pathOfLocation_segments location :
  Forall (fun seg => ¬ occursIn "/" seg) (pathOfLocation location) ∧
  length (pathOfLocation location)
    = length (filter (fun c => c = "/"%char) (list_ascii_of_string location)).
Proof.
  assert (Hsplit : ∀ s,
            Forall (fun seg => ¬ occursIn "/" seg) (split s "/") ∧
            length (split s "/")
              = S (length (filter (fun c => c = "/"%char)
                                  (list_ascii_of_string s)))).
  { unfold occursIn. induction s as [|c s [IHf IHl]]; cbn [split].
    - split; [|done]. constructor; [|done]. cbn. apply not_elem_of_nil.
    - cbn [list_ascii_of_string]. destruct (decide (c = "/"%char)) as [->|Hc].
      + rewrite filter_cons_True by done. cbn [length]. split; [|by rewrite IHl].
        constructor; [|done]. cbn. apply not_elem_of_nil.
      + rewrite filter_cons_False by done.
        destruct (split s "/") as [|piece pieces] eqn:Hs;
          [by apply split_nonempty in Hs|].
        split; [|done]. inversion IHf as [|? ? Hpiece Hpieces]; subst.
        constructor; [|done]. cbn. rewrite not_elem_of_cons. done. }
  destruct (Hsplit location) as [Hf Hl]. unfold pathOfLocation. split.
  - by apply Forall_drop.
  - rewrite length_drop, Hl. lia.
Qed.

Section HyperjumpFacts.

Context (interpret : Rec → Output).

(** X19.  The adapter's [validate] succeeds exactly when the validator's
    output is valid, and then hands back the record it was given,
    unchanged: it neither coerces values nor adds defaults. *)
Theorem hyperjumpValidate_echo d :
  success (hyperjumpValidate interpret d) = output_valid (interpret d) ∧
  ∀ sd, hyperjumpValidate interpret d = Success sd → sd = d.
Proof.
  unfold hyperjumpValidate. destruct (output_valid (interpret d)).
  - split; [done|]. by intros sd [= <-].
  - split; [done|]. done.
Qed.

(** X20.  On an invalid output there is one issue for each unit of the
    output's error list, in the same order, with the unit's keyword as
    message and the keys of its instance location as path; an output
    without an error list gives no issue at all. *)
Theorem hyperjumpValidate_issues d :
  output_valid (interpret d) = false →
  let units := default [] (output_errors (interpret d)) in
  length (issues (hyperjumpValidate interpret d)) = length units ∧
  (∀ i u, units !! i = Some u →
     ∃ issue, issues (hyperjumpValidate interpret d) !! i = Some issue ∧
              issue_message issue = keyword u ∧
              issue_path issue = pathOfLocation (instanceLocation u)) ∧
  (output_errors (interpret d) = None →
     hyperjumpValidate interpret d = Failure []).
Proof.
  intros Hinvalid units. unfold hyperjumpValidate. rewrite Hinvalid.
  cbn [issues]. fold units. split; [by rewrite length_fmap|]. split.
  - intros i u Hu. exists (issueOfUnit u). rewrite list_lookup_fmap, Hu. done.
  - intros Hnone. unfold units. by rewrite Hnone.
Qed.

End HyperjumpFacts.

(** ** The pattern [Email] *)

Local Open Scope list_scope.

Lemma Matches_eq r s s' : s = s' → Matches r s → Matches r s'.
Proof. by intros ->. Qed.

Lemma Matches_seq_inv r1 r2 s :
  Matches (RSeq r1 r2) s →
  ∃ s1 s2, s = s1 ++ s2 ∧ Matches r1 s1 ∧ Matches r2 s2.
Proof. inversion 1; subst; eauto. Qed.

Lemma Matches_class_inv p s :
  Matches (RClass p) s → ∃ c, s = [c] ∧ p c = true.
Proof. inversion 1; subst; eauto. Qed.

Lemma Matches_alt_inv r1 r2 s :
  Matches (RAlt r1 r2) s → Matches r1 s ∨ Matches r2 s.
Proof. inversion 1; subst; eauto. Qed.

Lemma Matches_eps_inv s : Matches REps s → s = [].
Proof. by inversion 1. Qed.

Lemma Matches_none_inv s : ¬ Matches RNone s.
Proof. inversion 1. Qed.

Lemma Matches_star_cons r c s :
  Matches (RStar r) (c :: s) →
  ∃ s1 s2, s = s1 ++ s2 ∧ Matches r (c :: s1) ∧ Matches (RStar r) s2.
Proof.
  intros H. remember (RStar r) as r' eqn:Hr. remember (c :: s) as cs eqn:Hcs.
  revert c s Hcs.
  induction H as [| | | | | |r0 s1 s2 H1 _ H2 IH2]; intros c' s' Hcs;
    try discriminate.
  injection Hr as ->. destruct s1 as [|c1 s1].
  - apply IH2; done.
  - injection Hcs as Hc Hs. subst. eauto.
Qed.

Lemma nullable_Matches r : nullable r = true ↔ Matches r [].
Proof.
  induction r as [| |p|r1 IH1 r2 IH2|r1 IH1 r2 IH2|r IH]; cbn [nullable].
  - split; [done|]. intros H. by apply Matches_none_inv in H.
  - split; [constructor|done].
  - split; [done|]. intros H. apply Matches_class_inv in H as (c & ? & _). done.
  - rewrite andb_true_iff, IH1, IH2. split.
    + intros [H1 H2]. apply (MSeq _ _ [] []); done.
    + intros H. apply Matches_seq_inv in H as (s1 & s2 & Hs & H1 & H2).
      symmetry in Hs. apply app_eq_nil in Hs as [-> ->]. done.
  - rewrite orb_true_iff, IH1, IH2. split.
    + intros [H|H]; [by apply MAltL|by apply MAltR].
    + apply Matches_alt_inv.
  - split; [constructor|done].
Qed.

Lemma deriv_Matches c r :
  ∀ s, Matches (deriv c r) s ↔ Matches r (c :: s).
Proof.
  induction r as [| |p|r1 IH1 r2 IH2|r1 IH1 r2 IH2|r IH]; intros s;
    cbn [deriv].
  - split; intros H; by apply Matches_none_inv in H.
  - split; intros H; [by apply Matches_none_inv in H|].
    by apply Matches_eps_inv in H.
  - destruct (p c) eqn:Hp; split; intros H.
    + apply Matches_eps_inv in H as ->. by constructor.
    + apply Matches_class_inv in H as (c' & [= -> ->] & _). constructor.
    + by apply Matches_none_inv in H.
    + apply Matches_class_inv in H as (c' & [= -> ->] & Hp').
      by rewrite Hp in Hp'.
  - assert (Hfront : ∀ s, Matches (RSeq (deriv c r1) r2) s →
                          Matches (RSeq r1 r2) (c :: s)).
    { intros s' H. apply Matches_seq_inv in H as (s1 & s2 & -> & H1 & H2).
      apply IH1 in H1. apply (MSeq _ _ (c :: s1) s2); done. }
    assert (Hback : ∀ s, Matches (RSeq r1 r2) (c :: s) →
                         Matches (RSeq (deriv c r1) r2) s ∨
                         (Matches r1 [] ∧ Matches r2 (c :: s))).
    { intros s' H. apply Matches_seq_inv in H as (s1 & s2 & Hs & H1 & H2).
      destruct s1 as [|c1 s1].
      - right. cbn in Hs. subst. done.
      - injection Hs as <- ->. left. apply MSeq; [|done]. by apply IH1. }
    destruct (nullable r1) eqn:Hn; split; intros H.
    + apply Matches_alt_inv in H as [H|H]; [by apply Hfront|].
      apply IH2 in H. apply nullable_Matches in Hn.
      apply (MSeq _ _ [] (c :: s)); done.
    + apply Hback in H as [H|[_ H]]; [by apply MAltL|].
      apply MAltR. by apply IH2.
    + by apply Hfront.
    + apply Hback in H as [H|[H _]]; [done|].
      apply nullable_Matches in H. by rewrite Hn in H.
  - split; intros H.
    + apply Matches_alt_inv in H as [H|H];
        [apply MAltL; by apply IH1|apply MAltR; by apply IH2].
    + apply Matches_alt_inv in H as [H|H];
        [apply MAltL; by apply IH1|apply MAltR; by apply IH2].
  - split; intros H.
    + apply Matches_seq_inv in H as (s1 & s2 & -> & H1 & H2).
      apply IH in H1. apply (MStarApp _ (c :: s1) s2); done.
    + apply Matches_star_cons in H as (s1 & s2 & -> & H1 & H2).
      apply MSeq; [|done]. by apply IH.
Qed.

(** The matcher decides membership. *)
Lemma matchesList_Matches s : ∀ r, matchesList r s = true ↔ Matches r s.
Proof.
  induction s as [|c s IH]; intros r; cbn [matchesList].
  - apply nullable_Matches.
  - rewrite IH. apply deriv_Matches.
Qed.

Lemma Matches_chars (P : ascii → Prop) r s :
  classesWithin P r → Matches r s → Forall P s.
Proof.
  intros Hc H. induction H as [|p c Hp|r1 r2 s1 s2 _ IH1 _ IH2
                               |r1 r2 s _ IH|r1 r2 s _ IH| |r s1 s2 _ IH1 _ IH2];
    cbn [classesWithin] in Hc.
  - constructor.
  - constructor; [by apply Hc|constructor].
  - destruct Hc. apply Forall_app. split; [by apply IH1|by apply IH2].
  - destruct Hc. by apply IH.
  - destruct Hc. by apply IH.
  - constructor.
  - apply Forall_app. split; [by apply IH1|by apply IH2].
Qed.

Lemma Matches_plus_nonempty r s :
  Matches (RPlus r) s → ¬ Matches r [] → s ≠ [].
Proof.
  intros H Hr. apply Matches_seq_inv in H as (s1 & s2 & -> & H1 & _).
  destruct s1; [done|]. done.
Qed.

Lemma Matches_star_class p s :
  Forall (fun c => p c = true) s → Matches (RStar (RClass p)) s.
Proof.
  induction 1 as [|c s Hc _ IH]; [constructor|].
  apply (MStarApp _ [c] s); [by constructor|done].
Qed.

Lemma Matches_plus_class p s :
  s ≠ [] → Forall (fun c => p c = true) s → Matches (RPlus (RClass p)) s.
Proof.
  intros Hne Hs. destruct Hs as [|c s Hc Hs]; [done|].
  apply (MSeq _ _ [c] s); [by constructor|by apply Matches_star_class].
Qed.

Lemma alnum_is_label c : alnumChar c = true → labelChar c = true.
Proof. unfold labelChar. by intros ->. Qed.

Lemma alnum_is_atom c : alnumChar c = true → atomChar c = true.
Proof. unfold atomChar. by intros ->. Qed.

Lemma Matches_label_word s :
  s ≠ [] → Forall (fun c => alnumChar c = true) s → Matches emailLabel s.
Proof.
  intros Hne Hs. destruct Hs as [|c s Hc Hs]; [done|].
  apply (MSeq _ _ [c] s); [by constructor|].
  destruct (decide (s = [])) as [->|Hs'].
  - apply MAltR. constructor.
  - apply MAltL. apply last_is_Some in Hs' as [z Hz].
    apply last_Some in Hz as [init ->].
    apply Forall_app in Hs as [Hinit Hz]. rewrite Forall_singleton in Hz.
    apply MSeq; [|by constructor].
    apply Matches_star_class.
    eapply Forall_impl; [exact Hinit|]. apply alnum_is_label.
Qed.

Lemma Matches_label_ends s :
  Matches emailLabel s →
  (∃ c rest, s = c :: rest ∧ alnumChar c = true) ∧
  (∃ z, last s = Some z ∧ alnumChar z = true).
Proof.
  intros H. apply Matches_seq_inv in H as (s1 & s2 & -> & H1 & H2).
  apply Matches_class_inv in H1 as (c & -> & Hc).
  split; [by eauto|].
  apply Matches_alt_inv in H2 as [H2|H2].
  - apply Matches_seq_inv in H2 as (t1 & t2 & -> & _ & Ht2).
    apply Matches_class_inv in Ht2 as (z & -> & Hz).
    exists z. split; [|done].
    rewrite (app_assoc [c] t1 [z]). apply last_snoc.
  - apply Matches_eps_inv in H2 as ->. exists c. done.
Qed.

Lemma Email_parts s :
  test Email s = true →
  ∃ l d, list_ascii_of_string s = l ++ "@"%char :: d ∧
         Matches emailLocal l ∧ Matches emailDomain d.
Proof.
  unfold test. rewrite matchesList_Matches. intros H.
  apply Matches_seq_inv in H as (l & rest & Hs & Hl & Hrest).
  apply Matches_seq_inv in Hrest as (a & d & -> & Ha & Hd).
  apply Matches_class_inv in Ha as (c & -> & Hc).
  apply bool_decide_eq_true in Hc as ->. eauto.
Qed.

Lemma emailLocal_no_at : classesWithin (fun c => c ≠ "@"%char) emailLocal.
Proof.
  unfold emailLocal, RPlus. cbn [classesWithin].
  repeat split; intros c Hc ->; vm_compute in Hc; discriminate.
Qed.

Lemma emailDomain_chars :
  classesWithin (fun c => labelChar c = true ∨ c = "."%char) emailDomain.
Proof.
  unfold emailDomain, emailLabel, RPlus, ROpt. cbn [classesWithin].
  repeat split; intros c Hc;
    try (left; by apply alnum_is_label); try (by left);
    right; by apply bool_decide_eq_true in Hc.
Qed.

Lemma labelChar_no_at c :
  labelChar c = true ∨ c = "."%char → c ≠ "@"%char.
Proof. intros [Hc| ->]; [intros ->; vm_compute in Hc|]; discriminate. Qed.

Lemma emailDomain_ends d :
  Matches emailDomain d →
  "."%char ∈ d ∧
  (∃ c rest, d = c :: rest ∧ alnumChar c = true) ∧
  (∃ z, last d = Some z ∧ alnumChar z = true).
Proof.
  intros H. apply Matches_seq_inv in H as (x & lab & -> & Hx & Hlab).
  apply Matches_seq_inv in Hx as (x1 & x2 & -> & Hx1 & _).
  apply Matches_seq_inv in Hx1 as (lab1 & dot & -> & Hlab1 & Hdot).
  apply Matches_class_inv in Hdot as (c & -> & Hc).
  apply bool_decide_eq_true in Hc as ->.
  apply Matches_label_ends in Hlab1 as [(c1 & rest1 & -> & Hc1) _].
  apply Matches_label_ends in Hlab as [_ (z & Hz & Hzc)].
  split; [|split].
  - rewrite !elem_of_app. left. left. right. apply list_elem_of_here.
  - eexists c1, _. split; [|done]. reflexivity.
  - exists z. split; [|done]. rewrite last_app, Hz. done.
Qed.

(** X21.  A string the pattern [Email] accepts has exactly one at sign,
    with something before it and, after it, a domain that contains a dot:
    the empty string, a bare name and an address at a host without a dot
    are all rejected. *)
Theorem Email_one_at s :
  test Email s = true →
  ∃ l d, list_ascii_of_string s = l ++ "@"%char :: d ∧
         ("@"%char ∉ l) ∧ ("@"%char ∉ d) ∧ l ≠ [] ∧ ("."%char ∈ d).
Proof.
  intros H. apply Email_parts in H as (l & d & Hs & Hl & Hd).
  exists l, d. split; [done|].
  pose proof (Matches_chars _ _ _ emailLocal_no_at Hl) as Hlc.
  pose proof (Matches_chars _ _ _ emailDomain_chars Hd) as Hdc.
  rewrite Forall_forall in Hlc, Hdc.
  split; [intros Hin; by apply Hlc in Hin|].
  split; [intros Hin; apply Hdc in Hin; by apply labelChar_no_at in Hin|].
  split.
  - apply Matches_seq_inv in Hl as (l1 & l2 & -> & Hl1 & _).
    apply Matches_seq_inv in Hl1 as (a & b & -> & Ha & _).
    apply Matches_class_inv in Ha as (c & -> & _). done.
  - by apply emailDomain_ends in Hd as [? _].
Qed.

(** X22.  In a string the pattern [Email] accepts, the part after the at
    sign is made of letters, digits, hyphens and dots only, and it begins
    and ends with a letter or a digit. *)
Theorem Email_domain_shape s :
  test Email s = true →
  ∃ l d, list_ascii_of_string s = l ++ "@"%char :: d ∧
         ("@"%char ∉ d) ∧
         Forall (fun c => labelChar c = true ∨ c = "."%char) d ∧
         (∃ c rest, d = c :: rest ∧ alnumChar c = true) ∧
         (∃ z, last d = Some z ∧ alnumChar z = true).
Proof.
  intros H. apply Email_parts in H as (l & d & Hs & Hl & Hd).
  exists l, d. split; [done|].
  pose proof (Matches_chars _ _ _ emailDomain_chars Hd) as Hdc.
  split.
  { rewrite Forall_forall in Hdc. intros Hin. apply Hdc in Hin.
    by apply labelChar_no_at in Hin. }
  split; [done|]. by apply emailDomain_ends in Hd as [_ ?].
Qed.

Lemma alnumWord_list s :
  alnumWord s →
  list_ascii_of_string s ≠ [] ∧
  Forall (fun c => alnumChar c = true) (list_ascii_of_string s).
Proof. intros [Hne Hs]. split; [|done]. by destruct s. Qed.

(** X23.  Every address [name@host.tld] whose three parts are non-empty
    words of letters and digits is accepted by the pattern [Email], in
    either case of the letters. *)
Theorem Email_accepts_words name host tld :
  alnumWord name → alnumWord host → alnumWord tld →
  test Email (name +:+ String "@" (host +:+ String "." tld)) = true.
Proof.
  intros [Hn Hnc]%alnumWord_list [Hh Hhc]%alnumWord_list
         [Ht Htc]%alnumWord_list.
  unfold test. rewrite matchesList_Matches.
  rewrite list_ascii_of_string_app. cbn [list_ascii_of_string].
  rewrite list_ascii_of_string_app. cbn [list_ascii_of_string].
  set (ln := list_ascii_of_string name) in *.
  set (lh := list_ascii_of_string host) in *.
  set (lt := list_ascii_of_string tld) in *.
  apply MSeq.
  - apply (Matches_eq _ (ln ++ [])); [apply app_nil_r|].
    apply MSeq; [|constructor].
    apply Matches_plus_class; [done|].
    eapply Forall_impl; [exact Hnc|]. apply alnum_is_atom.
  - apply (MSeq _ _ ["@"%char] (lh ++ "."%char :: lt)); [by constructor|].
    apply (Matches_eq _ (((lh ++ ["."%char]) ++ []) ++ lt)).
    { rewrite app_nil_r, <- app_assoc. done. }
    apply MSeq; [|by apply Matches_label_word].
    apply MSeq; [|constructor].
    apply MSeq; [by apply Matches_label_word|by constructor].
Qed.

(** ** The further properties at concrete calls *)

Lemma superValidate_additionalProperties_truthy_witness :
  let args := DataFirst (SrcPartial Demo.extraInput) Demo.adapter
                        (Some (Demo.withSchema Cases.schemaOpen)) in
  truthyAP (additionalProperties (callSchema Demo.mapAdapter args)) = true ∧
  data (Demo.run args 0%nat).1 !! "foo" = Some (JStr "bar").
Proof.
  intros args. split; [reflexivity|]. unfold Demo.run.
  rewrite (superValidate_additionalProperties_truthy
             Demo.nanoid Demo.validate Demo.mapAdapter Demo.parseRequest
             Demo.mapErrors args 0%nat "foo"); [|reflexivity].
  vm_compute. reflexivity.
Defined.

Lemma superValidate_accepted_witness :
  let args := DataFirst (SrcPartial Demo.extraInput) Demo.adapter None in
  let merged := mergedOf Demo.mapAdapter Demo.parseRequest args in
  hasDataOf Demo.mapAdapter Demo.parseRequest args || callAddErrors args
    = true ∧
  runValidator Demo.validate (validationOf Demo.mapAdapter args) merged
    = Success merged ∧
  valid (Demo.run args 0%nat).1 = true ∧
  errors (Demo.run args 0%nat).1 = ∅.
Proof.
  intros args merged.
  assert (H1 : hasDataOf Demo.mapAdapter Demo.parseRequest args
               || callAddErrors args = true) by reflexivity.
  assert (H2 : runValidator Demo.validate (validationOf Demo.mapAdapter args)
                 merged = Success merged) by (vm_compute; reflexivity).
  split; [exact H1|]. split; [exact H2|].
  destruct (superValidate_accepted
              Demo.nanoid Demo.validate Demo.mapAdapter Demo.parseRequest
              Demo.mapErrors args 0%nat merged H1 H2) as (Hv & He & _).
  split; [exact Hv|exact He].
Defined.

Lemma superValidate_errors_off_witness :
  let args := DataFirst Demo.postedInput Demo.adapter (Some Cases.errorsOff) in
  callOptions args ≫= opt_errors = Some false ∧
  errors (Demo.run args 0%nat).1 = ∅ ∧
  valid (Demo.run args 0%nat).1 = false.
Proof.
  intros args. split; [reflexivity|]. unfold Demo.run.
  destruct (superValidate_errors_off
              Demo.nanoid Demo.validate Demo.mapAdapter Demo.parseRequest
              Demo.mapErrors args 0%nat) as [He Hv]; [reflexivity|].
  split; [exact He|]. rewrite Hv. vm_compute. reflexivity.
Defined.

Lemma superValidate_strict_witness :
  let args := AdapterFirst Demo.adapter (Some Cases.strict) in
  callOptions args ≫= opt_strict = Some true ∧
  callOptions args ≫= opt_errors = None ∧
  valid (Demo.run args 0%nat).1 = false ∧
  errors (Demo.run args 0%nat).1 !! "_errors" = Some (ErrArr ["required"]).
Proof.
  intros args. split; [reflexivity|]. split; [reflexivity|]. unfold Demo.run.
  destruct (superValidate_strict
              Demo.nanoid Demo.validate Demo.mapAdapter Demo.parseRequest
              Demo.mapErrors args 0%nat) as [Hv He]; [reflexivity..|].
  split; [rewrite Hv|rewrite He]; vm_compute; reflexivity.
Defined.

Lemma superValidate_invalid_data_witness :
  let args := DataFirst Demo.postedInput Demo.adapter None in
  truthy (callOptions args ≫= opt_strict) = false ∧
  valid (Demo.run args 0%nat).1 = false ∧
  truthyAP (additionalProperties (callSchema Demo.mapAdapter args)) = false ∧
  data (Demo.run args 0%nat).1 !! "email" = Some (JStr "not-an-email").
Proof.
  intros args. split; [reflexivity|].
  assert (Hv : valid (Demo.run args 0%nat).1 = false)
    by (vm_compute; reflexivity).
  split; [exact Hv|]. split; [reflexivity|].
  destruct (superValidate_invalid_data
              Demo.nanoid Demo.validate Demo.mapAdapter Demo.parseRequest
              Demo.mapErrors args 0%nat) as [_ Hdata];
    [reflexivity|exact Hv|].
  unfold Demo.run. rewrite (Hdata eq_refl "email").
  rewrite decide_True.
  - vm_compute. reflexivity.
  - split; [|discriminate]. eexists. vm_compute. reflexivity.
Defined.

Lemma superValidate_echoing_validator_witness :
  let args := DataFirst (SrcPartial Demo.extraInput) Cases.adapter None in
  (∀ d sd,
     runValidator Demo.validate (validationOf Demo.mapAdapter args) d
       = Success sd → sd = d) ∧
  data (superValidate Demo.nanoid Demo.validate Demo.mapAdapter
          Demo.parseRequest Demo.mapErrors args 0%nat).1 =
    outputDataOf (callSchema Demo.mapAdapter args)
                 (mergedOf Demo.mapAdapter Demo.parseRequest args)
                 (callDefaults Demo.mapAdapter args).
Proof.
  intros args.
  assert (Hecho : ∀ d sd,
            runValidator Demo.validate (validationOf Demo.mapAdapter args) d
              = Success sd → sd = d).
  { intros d sd. change (hyperjumpValidate Cases.interpret d = Success sd → sd = d).
    unfold hyperjumpValidate.
    destruct (output_valid (Cases.interpret d)); [|discriminate].
    intros Heq. injection Heq as Heq. symmetry. exact Heq. }
  split; [exact Hecho|].
  apply (superValidate_echoing_validator
           Demo.nanoid Demo.validate Demo.mapAdapter Demo.parseRequest
           Demo.mapErrors args 0%nat Hecho).
Defined.

Lemma setError_returns_failure_witness :
  let args := AtPath "email" (OneMessage "taken")
                     (Some {| overwrite := None; status := Some 200 |}) in
  let r :=
    ActionFailure 200
      {| form_id := Some "abc123"; valid := false; posted := false;
         errors := {[ "email" := ErrArr ["taken"] ]}; data := ∅;
         constraints := JObj []; form_message := None |} in
  setError Demo.emptyForm args = Done r ∧
  r = ActionFailure (default 400 (status (unifySetError args).2))
                    (resultForm r).
Proof.
  intros args r.
  assert (Hr : setError Demo.emptyForm args = Done r) by reflexivity.
  split; [exact Hr|].
  apply (setError_returns_failure Demo.emptyForm args r Hr).
Defined.

Lemma setError_form_level_witness :
  let r :=
    ActionFailure 400
      {| form_id := Some "abc123"; valid := false; posted := true;
         errors := <["_errors" := ErrArr ["oops"]]>
                     (errors Demo.invalidForm);
         data := data Demo.invalidForm; constraints := JObj [];
         form_message := None |} in
  setError Demo.invalidForm (FormLevel (OneMessage "oops") None) = Done r ∧
  errors (resultForm r) !! "_errors" = Some (ErrArr ["oops"]) ∧
  errors (resultForm r) !! "email" = Some (ErrArr ["format"]).
Proof.
  intros r.
  assert (Hr : setError Demo.invalidForm (FormLevel (OneMessage "oops") None)
               = Done r) by reflexivity.
  split; [exact Hr|].
  destruct (setError_form_level Demo.invalidForm (OneMessage "oops") None r Hr)
    as (_ & Hroot & Hother).
  split; [exact Hroot|]. rewrite Hother; [reflexivity|discriminate].
Defined.

Lemma setError_other_paths_witness :
  splitPath "tags[1].name" = Some ["tags"; "1"; "name"] ∧
  fitsPath (errors Cases.nestedForm) ["tags"; "1"; "name"] = true ∧
  diverge ["tags"; "1"; "name"] ["tags"; "0"; "name"] = true ∧
  ∃ r, setError Cases.nestedForm
         (AtPath "tags[1].name" (OneMessage "taken") None) = Done r ∧
       getPath (errors (resultForm r)) ["tags"; "0"; "name"]
         = getPath (errors Cases.nestedForm) ["tags"; "0"; "name"].
Proof.
  do 3 (split; [reflexivity|]).
  apply (setError_other_paths Cases.nestedForm "tags[1].name"
           ["tags"; "1"; "name"] (OneMessage "taken") None
           ["tags"; "0"; "name"]); reflexivity.
Defined.

Lemma setError_append_compose_witness :
  truthy (None ≫= overwrite) = false ∧
  fitsCall Demo.invalidForm (AtPath "email" (OneMessage "taken") None) = true ∧
  ∃ r1, setError Demo.invalidForm (AtPath "email" (OneMessage "taken") None)
          = Done r1 ∧
        setError (resultForm r1)
                 (AtPath "email" (ManyMessages ["too long"; "odd"]) None) =
          setError Demo.invalidForm
            (AtPath "email"
                    (ManyMessages (errArrOf (OneMessage "taken")
                                   ++ errArrOf (ManyMessages ["too long"; "odd"]))%list)
                    None).
Proof.
  do 2 (split; [reflexivity|]).
  apply (setError_append_compose Demo.invalidForm "email" (OneMessage "taken")
           (ManyMessages ["too long"; "odd"]) None None); reflexivity.
Defined.

Lemma setError_overwrite_wins_witness :
  let o2 := Some {| overwrite := Some true; status := None |} in
  truthy (o2 ≫= overwrite) = true ∧
  fitsCall Demo.invalidForm (AtPath EmptyString (OneMessage "first") None)
    = true ∧
  ∃ r1, setError Demo.invalidForm (AtPath EmptyString (OneMessage "first") None)
          = Done r1 ∧
        setError (resultForm r1) (AtPath EmptyString (OneMessage "second") o2) =
          setError Demo.invalidForm
                   (AtPath EmptyString (OneMessage "second") o2).
Proof.
  intros o2. do 2 (split; [reflexivity|]).
  apply (setError_overwrite_wins Demo.invalidForm EmptyString
           (OneMessage "first") (OneMessage "second") None o2); reflexivity.
Defined.

Lemma setError_replaces_subtree_witness :
  splitPath "tags" = Some ["tags"] ∧
  fitsPath (errors Cases.nestedForm) ["tags"] = true ∧
  getPath (errors Cases.nestedForm) ["tags"]
    = Some (ErrObj {[ "0" := ErrObj {[ "name" := ErrArr ["too short"] ]} ]}) ∧
  ∃ r, setError Cases.nestedForm (AtPath "tags" (OneMessage "too many") None)
         = Done r ∧
       getPath (errors (resultForm r)) ["tags"] = Some (ErrArr ["too many"]) ∧
       ∀ key q, getPath (errors (resultForm r)) (["tags"] ++ key :: q)%list
                  = None.
Proof.
  do 3 (split; [reflexivity|]).
  apply (setError_replaces_subtree Cases.nestedForm "tags" ["tags"]
           (OneMessage "too many") None
           {[ "0" := ErrObj {[ "name" := ErrArr ["too short"] ]} ]});
    reflexivity.
Defined.

Lemma message_status_at_least_400_witness :
  400 ≤ 422 ∧
  let r := message Demo.emptyForm (JStr "bad")
                   (Some {| msg_status := Some 422 |}) in
  r = ActionFailure 422 (resultForm r) ∧
  valid (resultForm r) = false ∧
  form_message (resultForm r) = Some (JStr "bad").
Proof.
  split; [lia|].
  apply (message_status_at_least_400 Demo.emptyForm (JStr "bad") 422). lia.
Defined.

Lemma message_never_validates_witness :
  valid (resultForm (message Demo.emptyForm (JStr "saved") None)) = true ∧
  valid Demo.emptyForm = true ∧
  message Demo.emptyForm (JStr "saved") None
    = PlainResult (resultForm (message Demo.emptyForm (JStr "saved") None)).
Proof.
  split; [reflexivity|].
  apply (message_never_validates Demo.emptyForm (JStr "saved") None).
  reflexivity.
Defined.

Lemma message_after_setError_witness :
  let args := AtPath "email" (OneMessage "taken") None in
  let r :=
    ActionFailure 400
      {| form_id := Some "abc123"; valid := false; posted := false;
         errors := {[ "email" := ErrArr ["taken"] ]}; data := ∅;
         constraints := JObj []; form_message := None |} in
  setError Demo.emptyForm args = Done r ∧
  ∃ f, message (resultForm r) (JStr "ok")
               (Some {| msg_status := Some 200 |})
         = ActionFailure 200 f ∧
       valid f = false ∧
       errors f = errors (resultForm r) ∧
       form_message f = Some (JStr "ok").
Proof.
  intros args r.
  assert (Hr : setError Demo.emptyForm args = Done r) by reflexivity.
  split; [exact Hr|].
  apply (message_after_setError Demo.emptyForm args r (JStr "ok")
           (Some {| msg_status := Some 200 |}) Hr).
Defined.

Lemma pathOfLocation_locationOf_witness :
  ¬ occursIn "/" "#" ∧
  Forall (fun seg => ¬ occursIn "/" seg) ["tags"; "1"; "name"] ∧
  pathOfLocation "#/tags/1/name" = ["tags"; "1"; "name"].
Proof.
  assert (Hfree : ∀ s, bool_decide ("/"%char ∈ list_ascii_of_string s) = false
                       → ¬ occursIn "/" s).
  { intros s Hs. unfold occursIn. by apply bool_decide_eq_false_1 in Hs. }
  assert (H1 : ¬ occursIn "/" "#") by (apply Hfree; reflexivity).
  assert (H2 : Forall (fun seg => ¬ occursIn "/" seg) ["tags"; "1"; "name"]).
  { repeat constructor; apply Hfree; reflexivity. }
  split; [exact H1|]. split; [exact H2|].
  apply (pathOfLocation_locationOf "#" ["tags"; "1"; "name"] H1 H2).
Defined.

Lemma hyperjumpValidate_issues_witness :
  let d : Rec := {[ "name" := JStr "Ada"; "email" := JStr "not-an-email" ]} in
  output_valid (Cases.interpret d) = false ∧
  length (issues (hyperjumpValidate Cases.interpret d)) = 1%nat ∧
  ∃ issue, issues (hyperjumpValidate Cases.interpret d) !! 0%nat = Some issue ∧
           issue_message issue = "https://json-schema.org/keyword/format" ∧
           issue_path issue = pathOfLocation "#/email".
Proof.
  intros d.
  assert (Hinvalid : output_valid (Cases.interpret d) = false)
    by (vm_compute; reflexivity).
  split; [exact Hinvalid|].
  destruct (hyperjumpValidate_issues Cases.interpret d Hinvalid)
    as (Hlen & Hunits & _).
  split; [rewrite Hlen; vm_compute; reflexivity|].
  apply (Hunits 0%nat
           {| keyword := "https://json-schema.org/keyword/format";
              absoluteKeywordLocation := "#/properties/email/format";
              instanceLocation := "#/email" |}).
  vm_compute. reflexivity.
Defined.

Lemma Email_one_at_witness :
  test Email "ada@example.org" = true ∧
  ∃ l d, list_ascii_of_string "ada@example.org" = (l ++ "@"%char :: d)%list ∧
         ("@"%char ∉ l) ∧ ("@"%char ∉ d) ∧ l ≠ [] ∧ ("."%char ∈ d).
Proof.
  split; [reflexivity|]. apply (Email_one_at "ada@example.org"). reflexivity.
Defined.

Lemma Email_domain_shape_witness :
  test Email "grace.hopper@navy-yard.example.org" = true ∧
  ∃ l d, list_ascii_of_string "grace.hopper@navy-yard.example.org"
           = (l ++ "@"%char :: d)%list ∧
         ("@"%char ∉ d) ∧
         Forall (fun c => labelChar c = true ∨ c = "."%char) d ∧
         (∃ c rest, d = c :: rest ∧ alnumChar c = true) ∧
         (∃ z, last d = Some z ∧ alnumChar z = true).
Proof.
  split; [reflexivity|].
  apply (Email_domain_shape "grace.hopper@navy-yard.example.org"). reflexivity.
Defined.

Lemma Email_accepts_words_witness :
  alnumWord "Ada" ∧ alnumWord "example" ∧ alnumWord "org" ∧
  test Email "Ada@example.org" = true.
Proof.
  assert (H1 : alnumWord "Ada") by (split; [discriminate|repeat constructor]).
  assert (H2 : alnumWord "example")
    by (split; [discriminate|repeat constructor]).
  assert (H3 : alnumWord "org") by (split; [discriminate|repeat constructor]).
  split; [exact H1|]. split; [exact H2|]. split; [exact H3|].
  apply (Email_accepts_words "Ada" "example" "org" H1 H2 H3).
Defined.

(** ** Round trip and invariants *)

(** Computing the data a second time, from the data and the defaults,
    changes nothing. *)
Lemma outputDataOf_again js (m dflt : Rec) :
  (∀ k, m !! k = None → dflt !! k = None) →
  outputDataOf js (outputDataOf js m dflt ∪ dflt) dflt = outputDataOf js m dflt.
Proof.
  intros Hcov.
  assert (Hcov' : ∀ k, (outputDataOf js m dflt ∪ dflt) !! k = None →
                       dflt !! k = None).
  { intros k. rewrite lookup_union.
    destruct (dflt !! k); [|done].
    by destruct (outputDataOf js m dflt !! k). }
  revert Hcov'. unfold outputDataOf.
  destruct (truthyAP _); cbn [negb]; intros Hcov'.
  - rewrite (backfill_covering m dflt Hcov).
    rewrite (backfill_covering m dflt Hcov) in Hcov'.
    rewrite backfill_covering by done.
    apply map_eq. intros k. rewrite lookup_union.
    destruct (m !! k) as [v|] eqn:Hk; [by destruct (dflt !! k)|].
    by rewrite (Hcov k Hk).
  - apply map_eq. intros k.
    rewrite (stripKeys_covering _ _ _ _ Hcov').
    rewrite (stripKeys_covering _ _ _ _ Hcov).
    case_decide; [|done].
    rewrite lookup_union, (stripKeys_covering _ _ _ _ Hcov).
    rewrite decide_True by done.
    destruct (m !! k) as [v|] eqn:Hk; [by destruct (dflt !! k)|].
    rewrite (Hcov k Hk). by destruct (inherited k).
Qed.

Section PipelineRoundTrip.

Context {Rng : Type} (nanoid : Rng → string * Rng).
Context {Validator : Type} (validate : Validator → Rec → ValidationResult).
Context {ValidationAdapter : Type}
        (mapAdapter : ValidationAdapter → MappedValidationAdapter Validator).
Context (parseRequest :
           Source → JSONSchema → option SuperValidateOptions → ParsedData).
Context (mapErrors : list Issue → JsVal → Errors).

Lemma superValidate_data_echo args g :
  (∀ d sd, runValidator validate (validationOf mapAdapter args) d = Success sd
           → sd = d) →
  data (superValidate nanoid validate mapAdapter parseRequest mapErrors
          args g).1 =
    outputDataOf (callSchema mapAdapter args)
                 (mergedOf mapAdapter parseRequest args)
                 (callDefaults mapAdapter args).
Proof.
  intros Hecho. rewrite superValidate_data. f_equal.
  unfold finalDataOf, statusFor, statusOf.
  destruct (_ || _); [|done].
  destruct (runValidator _ _ _) as [sd|] eqn:Hr; [|done].
  by apply Hecho in Hr.
Qed.

(** X24.  Validating the data of a form again gives the same data: with
    a validator that hands back what it accepts, outside strict mode, and
    a normalizer that passes a plain record on as it is, the data
    [superValidate] returns for a record is a fixed point of
    [superValidate]. *)
Theorem superValidate_revalidate adapter options r g g' :
  let run args h :=
    superValidate nanoid validate mapAdapter parseRequest mapErrors args h in
  let args1 := DataFirst (SrcPartial r) adapter options in
  let data1 := data (run args1 g).1 in
  let args2 := DataFirst (SrcPartial data1) adapter options in
  truthy (options ≫= opt_strict) = false →
  (∀ d sd, runValidator validate (mapAdapter adapter) d = Success sd → sd = d) →
  parsed_data (parsedOf mapAdapter parseRequest args1) = Some r →
  parsed_data (parsedOf mapAdapter parseRequest args2) = Some data1 →
  data (run args2 g').1 = data1.
Proof.
  intros run args1 data1 args2 Hs Hecho Hp1 Hp2.
  assert (H1 : data1 =
            outputDataOf (callSchema mapAdapter args1)
              (mergedOf mapAdapter parseRequest args1)
              (callDefaults mapAdapter args1)).
  { unfold data1, run. by apply superValidate_data_echo. }
  unfold run. rewrite superValidate_data_echo by done.
  change (callSchema mapAdapter args2) with (callSchema mapAdapter args1).
  change (callDefaults mapAdapter args2) with (callDefaults mapAdapter args1).
  assert (Hm2 : mergedOf mapAdapter parseRequest args2
                = data1 ∪ callDefaults mapAdapter args1).
  { unfold mergedOf, mergeData. rewrite Hp2.
    change (callOptions args2) with options. by rewrite Hs. }
  rewrite Hm2, H1. apply outputDataOf_again.
  intros k. unfold mergedOf.
  change (callOptions args1) with options. by apply mergeData_covers.
Qed.

End PipelineRoundTrip.

(** X25.  A call of [setError] within the declared types leaves the
    error tree in a shape on which the same call is again within the
    declared types: setting errors at a place can be repeated without
    end. *)
Theorem setError_repeatable form args :
  fitsCall form args = true →
  ∃ r, setError form args = Done r ∧ fitsCall (resultForm r) args = true.
Proof.
  unfold fitsCall, setError.
  destruct (unifySetError args) as [[path error] options].
  destruct (decide (path = EmptyString)) as [->|Hne].
  - intros Hroot.
    assert (Hins : ∃ msgs, setRootErrors (errors form) (errArrOf error) options
                           = Done (<["_errors" := ErrArr msgs]> (errors form))).
    { unfold setRootErrors. destruct (truthy (overwrite options)); [eauto|].
      cbn [orb] in Hroot.
      destruct (errors form !! "_errors") as [[old|fields]|]; [|done|]; eauto. }
    destruct Hins as [msgs ->]. eexists. split; [reflexivity|].
    cbn [resultForm errors]. rewrite lookup_insert_eq. apply orb_true_r.
  - unfold setPathErrors.
    destruct (splitPath path) as [segs|] eqn:Hsplit; [|done]. intros Hfits.
    destruct (splitPath_nonempty _ _ Hsplit) as [_ Hsegs].
    rewrite (writeLeaf_setNode _ _ _ _ Hsegs Hfits).
    eexists. split; [reflexivity|]. cbn [resultForm errors].
    by apply fitsPath_setNode.
Qed.

Lemma setError_repeatable_witness :
  let args := AtPath "tags[1].name" (OneMessage "taken") None in
  fitsCall Demo.emptyForm args = true ∧
  ∃ r, setError Demo.emptyForm args = Done r ∧
       fitsCall (resultForm r) args = true.
Proof.
  intros args. split; [reflexivity|].
  apply (setError_repeatable Demo.emptyForm args). reflexivity.
Defined.

Lemma superValidate_revalidate_witness :
  let args1 := DataFirst (SrcPartial Demo.extraInput) Demo.adapter None in
  let data1 := data (Demo.run args1 0%nat).1 in
  let args2 := DataFirst (SrcPartial data1) Demo.adapter None in
  truthy (None ≫= opt_strict) = false ∧
  (∀ d sd, runValidator Demo.validate (Demo.mapAdapter Demo.adapter) d
             = Success sd → sd = d) ∧
  parsed_data (parsedOf Demo.mapAdapter Demo.parseRequest args1)
    = Some Demo.extraInput ∧
  parsed_data (parsedOf Demo.mapAdapter Demo.parseRequest args2) = Some data1 ∧
  data (Demo.run args2 1%nat).1 = data1.
Proof.
  intros args1 data1 args2.
  assert (Hecho : ∀ d sd,
            runValidator Demo.validate (Demo.mapAdapter Demo.adapter) d
              = Success sd → sd = d).
  { intros d sd. change (Demo.checkEmail d = Success sd → sd = d).
    unfold Demo.checkEmail.
    destruct (d !! "email") as [[| | | |s| | |]|]; try discriminate.
    destruct (Demo.hasAt s); [|discriminate].
    intros Heq. injection Heq as Heq. symmetry. exact Heq. }
  split; [reflexivity|]. split; [exact Hecho|].
  split; [reflexivity|]. split; [reflexivity|].
  apply (superValidate_revalidate
           Demo.nanoid Demo.validate Demo.mapAdapter Demo.parseRequest
           Demo.mapErrors Demo.adapter None Demo.extraInput 0%nat 1%nat);
    [reflexivity|exact Hecho|reflexivity|reflexivity].
Defined.

Lemma Matches_plus_class_ends p s :
  Matches (RPlus (RClass p)) s →
  (∃ c rest, s = c :: rest ∧ p c = true) ∧
  (∃ z, last s = Some z ∧ p z = true).
Proof.
  intros H.
  assert (Hall : Forall (fun c => p c = true) s).
  { apply (Matches_chars (fun c => p c = true) (RPlus (RClass p)) s);
      [|done].
    unfold RPlus. cbn [classesWithin]. done. }
  apply Matches_seq_inv in H as (s1 & s2 & -> & H1 & _).
  apply Matches_class_inv in H1 as (c & -> & Hc).
  split; [by eauto|].
  destruct (last ([c] ++ s2)) as [z|] eqn:Hz.
  - exists z. split; [done|]. apply last_Some in Hz as [init Hz].
    rewrite Hz in Hall. apply Forall_app in Hall as [_ Hall].
    by rewrite Forall_singleton in Hall.
  - by apply last_None in Hz.
Qed.

Lemma Matches_star_blocks_last q p s :
  Matches (RStar (RSeq (RClass q) (RPlus (RClass p)))) s →
  s = [] ∨ ∃ z, last s = Some z ∧ p z = true.
Proof.
  intros H. remember (RStar (RSeq (RClass q) (RPlus (RClass p)))) as r eqn:Hr.
  induction H as [| | | | | |r0 s1 s2 H1 _ H2 IH2]; try discriminate;
    [by left|].
  injection Hr as ->. right.
  apply Matches_seq_inv in H1 as (d & block & -> & _ & Hblock).
  apply Matches_plus_class_ends in Hblock as [_ (z1 & Hz1 & Hp1)].
  destruct (IH2 eq_refl) as [->|(z & Hz & Hp)].
  - exists z1. rewrite app_nil_r, last_app, Hz1. done.
  - exists z. rewrite last_app, Hz. done.
Qed.

Lemma emailLocal_chars :
  classesWithin (fun c => atomChar c = true ∨ c = "."%char) emailLocal.
Proof.
  unfold emailLocal, RPlus. cbn [classesWithin].
  repeat split; intros c Hc; try (by left);
    right; by apply bool_decide_eq_true in Hc.
Qed.

(** X26.  In a string the pattern [Email] accepts, the part before the at
    sign is made of the characters of the pattern's class and dots, and
    it begins and ends with a character of the class: a dot is never its
    first or last character. *)
Theorem Email_local_shape s :
  test Email s = true →
  ∃ l d, list_ascii_of_string s = l ++ "@"%char :: d ∧
         ("@"%char ∉ l) ∧
         Forall (fun c => atomChar c = true ∨ c = "."%char) l ∧
         (∃ c rest, l = c :: rest ∧ atomChar c = true ∧ c ≠ "."%char) ∧
         (∃ z, last l = Some z ∧ atomChar z = true ∧ z ≠ "."%char).
Proof.
  intros H. apply Email_parts in H as (l & d & Hs & Hl & Hd).
  exists l, d. split; [done|].
  pose proof (Matches_chars _ _ _ emailLocal_no_at Hl) as Hno.
  pose proof (Matches_chars _ _ _ emailLocal_chars Hl) as Hall.
  split; [rewrite Forall_forall in Hno; intros Hin; by apply Hno in Hin|].
  split; [done|].
  assert (Hdot : ∀ c, atomChar c = true → c ≠ "."%char).
  { intros c Hc ->. vm_compute in Hc. discriminate. }
  apply Matches_seq_inv in Hl as (l1 & l2 & -> & Hl1 & Hl2).
  apply Matches_plus_class_ends in Hl1 as [(c & rest & -> & Hc) (z1 & Hz1 & Hp1)].
  split.
  - exists c, (rest ++ l2). split; [done|]. split; [done|by apply Hdot].
  - apply Matches_star_blocks_last in Hl2 as [->|(z & Hz & Hp)].
    + exists z1. rewrite app_nil_r. split; [done|]. split; [done|by apply Hdot].
    + exists z. rewrite last_app, Hz. split; [done|]. split; [done|by apply Hdot].
Qed.

Lemma Email_local_shape_witness :
  test Email "grace.hopper@navy-yard.example.org" = true ∧
  ∃ l d, list_ascii_of_string "grace.hopper@navy-yard.example.org"
           = l ++ "@"%char :: d ∧
         ("@"%char ∉ l) ∧
         Forall (fun c => atomChar c = true ∨ c = "."%char) l ∧
         (∃ c rest, l = c :: rest ∧ atomChar c = true ∧ c ≠ "."%char) ∧
         (∃ z, last l = Some z ∧ atomChar z = true ∧ z ≠ "."%char).
Proof.
  split; [reflexivity|].
  apply (Email_local_shape "grace.hopper@navy-yard.example.org"). reflexivity.
Defined.

Lemma hyperjumpValidate_echo_witness :
  let d : Rec := {[ "name" := JStr "Ada"; "email" := JStr "ada@example.org" ]} in
  hyperjumpValidate Cases.interpret d = Success d ∧
  success (hyperjumpValidate Cases.interpret d)
    = output_valid (Cases.interpret d) ∧
  ∀ sd, hyperjumpValidate Cases.interpret d = Success sd → sd = d.
Proof.
  intros d. split; [vm_compute; reflexivity|].
  apply (hyperjumpValidate_echo Cases.interpret d).
Defined.
